(** * A first-fit free-list allocator over [sbrk]: model of [src/alloc.c]

    The C file keeps one global, [HEAD], the head of a singly linked list of
    free blocks threaded through the heap itself.  Every function is embedded
    here as a function on an explicit machine state: a byte-addressed memory,
    the value of [HEAD], and the program break managed by [sbrk].

    Conventions.
    - [size_t] values are integers modulo [2^64]; every [size_t] operation of
      the source is followed by [wrap].
    - Pointers are addresses in [Z]; [NULL] is [0] and [(void * )-1] is [-1].
      Where the source adds a recorded size to an address (the end of a
      block in [find_prev], [find_next] and [coalesce]) the sum is reduced
      modulo [2^64], as the compiled addition is: a size word can hold any
      64-bit value.  The fixed offsets of a field or of the size word are
      exact: no object straddles the end of the address space.
    - Loops that walk the free list take a [fuel] bound and answer [None]
      when it runs out (the list in memory may be cyclic). *)

From Stdlib Require Import ZArith List Bool Lia.
Import ListNotations.
Local Open Scope Z_scope.

(** ** Machine words *)

Definition WORD : Z := 2 ^ 64.

(** Reduction of an integer to an unsigned 64-bit [size_t]. *)
Definition wrap (x : Z) : Z := x mod WORD.

(** Reading of a 64-bit pattern as [intptr_t] (two's complement). *)
Definition to_signed (x : Z) : Z :=
  if wrap x <? 2 ^ 63 then wrap x else wrap x - WORD.

Definition NULL : Z := 0.

(** ** Byte-addressed memory, little-endian 8-byte accesses *)

Definition memory : Type := Z -> Z.

(** Byte number [i] of the value [v]. *)
Definition byte_of (v i : Z) : Z := (v / 2 ^ (8 * i)) mod 256.

Definition load64 (m : memory) (a : Z) : Z :=
  m a mod 256
  + 2 ^ 8 * (m (a + 1) mod 256)
  + 2 ^ 16 * (m (a + 2) mod 256)
  + 2 ^ 24 * (m (a + 3) mod 256)
  + 2 ^ 32 * (m (a + 4) mod 256)
  + 2 ^ 40 * (m (a + 5) mod 256)
  + 2 ^ 48 * (m (a + 6) mod 256)
  + 2 ^ 56 * (m (a + 7) mod 256).

Definition store64 (m : memory) (a v : Z) : memory :=
  fun x => if (a <=? x) && (x <? a + 8) then byte_of v (x - a) else m x.

(** [memset(dst, c, n)] *)
Definition memset (m : memory) (dst c n : Z) : memory :=
  fun x => if (dst <=? x) && (x <? dst + n) then c mod 256 else m x.

(** [memcpy(dst, src, n)]; the source bytes are those before the call. *)
Definition memcpy (m : memory) (dst src n : Z) : memory :=
  fun x => if (dst <=? x) && (x <? dst + n) then m (src + (x - dst)) else m x.

(** ** Layout of [alloc.h] *)

(** Modelled from the spec: [alloc.h] is not among the sources.  The block
    header [free_block] holds [size] (a [size_t]) followed by [next] (a
    pointer); on the LP64 target both are 8 bytes. *)
Definition sizeof_size_t : Z := 8.
Definition sizeof_free_block : Z := 16.
Definition off_size : Z := 0.
Definition off_next : Z := 8.

Definition ALIGNMENT : Z := 16.

(** ** Machine state *)

Record state : Type := mkState {
  mem : memory;      (* the address space *)
  HEAD : Z;          (* static free_block *HEAD *)
  brk : Z;           (* current program break *)
  brk_min : Z;       (* lowest break the kernel accepts *)
  brk_max : Z        (* highest break the kernel grants *)
}.

Definition set_mem (st : state) (m : memory) : state :=
  mkState m (HEAD st) (brk st) (brk_min st) (brk_max st).
Definition set_HEAD (st : state) (h : Z) : state :=
  mkState (mem st) h (brk st) (brk_min st) (brk_max st).
Definition set_brk (st : state) (b : Z) : state :=
  mkState (mem st) (HEAD st) b (brk_min st) (brk_max st).

(** [block->size] and [block->next] *)
Definition get_size (st : state) (block : Z) : Z := load64 (mem st) (block + off_size).
Definition get_next (st : state) (block : Z) : Z := load64 (mem st) (block + off_next).
Definition put_size (st : state) (block v : Z) : state :=
  set_mem st (store64 (mem st) (block + off_size) v).
Definition put_next (st : state) (block v : Z) : state :=
  set_mem st (store64 (mem st) (block + off_next) v).

(** The operating system's [sbrk(intptr_t increment)]: moves the break by
    [increment] and returns the previous break, or returns [(void * )-1] and
    moves nothing when the new break would leave [[brk_min, brk_max]]. *)
Definition sbrk (st : state) (increment : Z) : Z * state :=
  let new_brk := brk st + increment in
  if (brk_min st <=? new_brk) && (new_brk <=? brk_max st)
  then (brk st, set_brk st new_brk)
  else (-1, st).

(** ** The functions of [alloc.c] *)

(** [split(block, size)]; [size] is a C [int], converted to [size_t] where
    it meets one. *)
Definition split (st : state) (block size : Z) : Z * state :=
  if get_size st block <? wrap (wrap size + sizeof_free_block) then (NULL, st)
  else
    let new_block := block + size + sizeof_free_block in
    let st1 :=
      put_size st new_block
        (wrap (wrap (get_size st block - wrap size) - sizeof_free_block)) in
    let st2 := put_next st1 new_block (get_next st1 block) in
    let st3 := put_size st2 block (wrap size) in
    (block, st3).

(** The loop of [find_prev], started at [curr]. *)
Fixpoint find_prev_from (fuel : nat) (st : state) (curr block : Z) : option Z :=
  match fuel with
  | O => None
  | S fuel' =>
    if curr =? NULL then Some NULL
    else
      let next := wrap (curr + get_size st curr + sizeof_free_block) in
      if next =? block then Some curr
      else find_prev_from fuel' st (get_next st curr) block
  end.

Definition find_prev (fuel : nat) (st : state) (block : Z) : option Z :=
  find_prev_from fuel st (HEAD st) block.

(** The loop of [find_next], started at [curr]. *)
Fixpoint find_next_from (fuel : nat) (st : state) (curr block_end : Z) : option Z :=
  match fuel with
  | O => None
  | S fuel' =>
    if curr =? NULL then Some NULL
    else if curr =? block_end then Some curr
    else find_next_from fuel' st (get_next st curr) block_end
  end.

Definition find_next (fuel : nat) (st : state) (block : Z) : option Z :=
  let block_end := wrap (block + get_size st block + sizeof_free_block) in
  find_next_from fuel st (HEAD st) block_end.

(** The loop of [remove_free_block], started at [curr]. *)
Fixpoint remove_free_block_from (fuel : nat) (st : state) (curr block : Z)
  : option state :=
  match fuel with
  | O => None
  | S fuel' =>
    if curr =? NULL then Some st
    else if get_next st curr =? block
    then Some (put_next st curr (get_next st block))
    else remove_free_block_from fuel' st (get_next st curr) block
  end.

Definition remove_free_block (fuel : nat) (st : state) (block : Z) : option state :=
  let curr := HEAD st in
  if curr =? block then Some (set_HEAD st (get_next st block))
  else remove_free_block_from fuel st curr block.

(** First half of [coalesce]: absorb [block] into its previous neighbour.
    Returns the block that continues and the new state. *)
Definition coalesce_prev (st : state) (prev block : Z) : Z * state :=
  if prev =? NULL then (block, st)
  else
    let end_of_prev := wrap (prev + get_size st prev + sizeof_free_block) in
    if end_of_prev =? block then
      let st1 :=
        put_size st prev
          (wrap (get_size st prev + wrap (get_size st block + sizeof_free_block))) in
      let st2 :=
        if get_next st1 prev =? block
        then put_next st1 prev (get_next st1 block)
        else st1 in
      (prev, st2)
    else (block, st).

(** Second half of [coalesce]: absorb the next neighbour into [block]. *)
Definition coalesce_next (st : state) (next block : Z) : state :=
  if next =? NULL then st
  else
    let end_of_block := wrap (block + get_size st block + sizeof_free_block) in
    if end_of_block =? next then
      let st1 :=
        put_size st block
          (wrap (get_size st block + wrap (get_size st next + sizeof_free_block))) in
      put_next st1 block (get_next st1 next)
    else st.

Definition coalesce (fuel : nat) (st : state) (block : Z) : option (Z * state) :=
  if block =? NULL then Some (NULL, st)
  else
    match find_prev fuel st block, find_next fuel st block with
    | Some prev, Some next =>
      let '(block1, st1) := coalesce_prev st prev block in
      Some (block1, coalesce_next st1 next block1)
    | _, _ => None
    end.

Definition do_alloc (st : state) (size : Z) : Z * state :=
  let '(ptr, st1) := sbrk st (to_signed size) in
  if ptr =? -1 then (NULL, st1) else (ptr, st1).

(** [(size + ALIGNMENT - 1) & ~(ALIGNMENT - 1)] in [size_t]; the [int]
    mask [~15] is converted to [size_t]. *)
Definition align_up (size : Z) : Z :=
  Z.land (wrap (wrap (size + ALIGNMENT) - 1)) (wrap (Z.lnot (ALIGNMENT - 1))).

(** The first-fit loop of [tumalloc].  [Some (Some (p, st'))]: a block was
    unlinked and [p] is returned to the caller; [Some None]: the loop ended
    at [NULL] and control falls through to [do_alloc]. *)
Fixpoint tumalloc_scan (fuel : nat) (st : state) (size curr prev : Z)
  : option (option (Z * state)) :=
  match fuel with
  | O => None
  | S fuel' =>
    if curr =? NULL then Some None
    else if wrap (size + sizeof_free_block) <=? get_size st curr then
      let st' :=
        if prev =? NULL
        then set_HEAD st (get_next st curr)
        else put_next st prev (get_next st curr) in
      Some (Some (curr + sizeof_size_t, st'))
    else tumalloc_scan fuel' st size (get_next st curr) curr
  end.

(** The tail of [tumalloc], after the loop: grow the heap. *)
Definition tumalloc_grow (st : state) (size : Z) : Z * state :=
  let '(ptr, st1) := do_alloc st (wrap (size + sizeof_size_t)) in
  if ptr =? NULL then (NULL, st1)
  else (ptr + sizeof_size_t, set_mem st1 (store64 (mem st1) ptr size)).

Definition tumalloc (fuel : nat) (st : state) (size : Z) : option (Z * state) :=
  let size := align_up size in
  match tumalloc_scan fuel st size (HEAD st) NULL with
  | None => None
  | Some (Some r) => Some r
  | Some None => Some (tumalloc_grow st size)
  end.

Definition tucalloc (fuel : nat) (st : state) (num size : Z) : option (Z * state) :=
  let total_size := wrap (num * size) in
  match tumalloc fuel st total_size with
  | None => None
  | Some (ptr, st1) =>
    if ptr =? NULL then Some (NULL, st1)
    else Some (ptr, set_mem st1 (memset (mem st1) ptr 0 total_size))
  end.

Definition tufree (fuel : nat) (st : state) (ptr : Z) : option state :=
  if ptr =? NULL then Some st
  else
    let block := ptr - sizeof_size_t in
    let st1 := put_next st block (HEAD st) in
    let st2 := set_HEAD st1 block in
    match coalesce fuel st2 block with
    | Some (_, st3) => Some st3
    | None => None
    end.

Definition turealloc (fuel : nat) (st : state) (ptr new_size : Z)
  : option (Z * state) :=
  if ptr =? NULL then tumalloc fuel st new_size
  else if new_size =? 0 then
    match tufree fuel st ptr with
    | Some st1 => Some (NULL, st1)
    | None => None
    end
  else
    let old_size := load64 (mem st) (ptr - sizeof_size_t) in
    if new_size <=? old_size then Some (ptr, st)
    else
      match tumalloc fuel st new_size with
      | None => None
      | Some (new_ptr, st1) =>
        if new_ptr =? NULL then Some (NULL, st1)
        else
          let st2 := set_mem st1 (memcpy (mem st1) new_ptr ptr old_size) in
          match tufree fuel st2 ptr with
          | Some st3 => Some (new_ptr, st3)
          | None => None
          end
      end.

(** The state after a granted growth: the break has moved and the size is
    stamped at the old break. *)
Definition grown (st : state) (size : Z) : state :=
  mkState (store64 (mem st) (brk st) size) (HEAD st)
          (brk st + to_signed (wrap (size + sizeof_size_t)))
          (brk_min st) (brk_max st).

(** ** Observing the free list *)

(** Addresses of the blocks met when following [next] from [curr]. *)
Fixpoint free_blocks_from (fuel : nat) (st : state) (curr : Z) : option (list Z) :=
  match fuel with
  | O => None
  | S fuel' =>
    if curr =? NULL then Some []
    else
      match free_blocks_from fuel' st (get_next st curr) with
      | Some l => Some (curr :: l)
      | None => None
      end
  end.

Definition free_blocks (fuel : nat) (st : state) : option (list Z) :=
  free_blocks_from fuel st (HEAD st).

(** Address range of a block whose header takes [hdr] bytes: [[lo, hi)]. *)
Definition block_span (hdr : Z) (st : state) (block : Z) : Z * Z :=
  (block, block + hdr + get_size st block).

Definition span_inside (r1 r2 : Z * Z) : bool :=
  (fst r2 <=? fst r1) && (snd r1 <=? snd r2).

Definition span_overlap (r1 r2 : Z * Z) : bool :=
  (fst r1 <? snd r2) && (fst r2 <? snd r1).

(** No two entries of the list overlap. *)
Fixpoint spans_disjoint (l : list (Z * Z)) : bool :=
  match l with
  | [] => true
  | r :: rest => forallb (fun r' => negb (span_overlap r r')) rest && spans_disjoint rest
  end.

(** ** Callers *)

(** The four public operations as a caller issues them. *)
Inductive call : Type :=
| Allocate (size : Z)
| ZeroAllocate (count elemSize : Z)
| Resize (ptr new_size : Z)
| Release (ptr : Z).

(** The allocator together with the pointers its caller currently owns. *)
Record client : Type := mkClient {
  heap : state;
  owned : list Z
}.

Definition owns (p : Z) (l : list Z) : bool := existsb (Z.eqb p) l.
Definition own (p : Z) (l : list Z) : list Z := if p =? NULL then l else p :: l.
Definition disown (p : Z) (l : list Z) : list Z := remove Z.eq_dec p l.

(** One call of a well-behaved caller: it releases and resizes only
    pointers it owns (or [NULL]); [None] on misuse or exhausted fuel. *)
Definition step (fuel : nat) (c : client) (k : call) : option client :=
  match k with
  | Allocate size =>
    match tumalloc fuel (heap c) size with
    | Some (p, st) => Some (mkClient st (own p (owned c)))
    | None => None
    end
  | ZeroAllocate count elemSize =>
    match tucalloc fuel (heap c) count elemSize with
    | Some (p, st) => Some (mkClient st (own p (owned c)))
    | None => None
    end
  | Resize ptr new_size =>
    if (ptr =? NULL) || owns ptr (owned c) then
      match turealloc fuel (heap c) ptr new_size with
      | Some (q, st) =>
        let l :=
          if ptr =? NULL then own q (owned c)
          else if new_size =? 0 then disown ptr (owned c)
          else if q =? NULL then owned c
          else q :: disown ptr (owned c) in
        Some (mkClient st l)
      | None => None
      end
    else None
  | Release ptr =>
    if (ptr =? NULL) || owns ptr (owned c) then
      match tufree fuel (heap c) ptr with
      | Some st => Some (mkClient st (disown ptr (owned c)))
      | None => None
      end
    else None
  end.

Fixpoint run (fuel : nat) (c : client) (calls : list call) : option client :=
  match calls with
  | [] => Some c
  | k :: rest =>
    match step fuel c k with
    | Some c' => run fuel c' rest
    | None => None
    end
  end.

(** A process that has not allocated yet: zeroed memory, empty free list,
    break at [base], growth granted up to [limit]. *)
Definition fresh_heap (base limit : Z) : state :=
  mkState (fun _ => 0) NULL base base limit.

Definition fresh_client (base limit : Z) : client :=
  mkClient (fresh_heap base limit) [].

(** Addresses held by the state are addresses of a running process: the
    list head is not negative and the break lies above address [0]. *)
Definition sane (st : state) : Prop := 0 <= HEAD st /\ 0 < brk st.

(** The heap a fresh process (break [4096], growth granted up to [limit])
    reaches by the given calls. *)
Definition heap_after (fuel : nat) (limit : Z) (calls : list call) : state :=
  match run fuel (fresh_client 4096 limit) calls with
  | Some c => heap c
  | None => fresh_heap 4096 limit
  end.

(** ** Statements of the specification that the code is tested against *)

(** Resize with a new size within the recorded capacity hands back the
    same pointer and changes nothing. *)
Definition resize_returns_same (fuel : nat) (st : state) (p n : Z) : Prop :=
  p <> NULL ->
  0 <= n <= load64 (mem st) (p - sizeof_size_t) ->
  turealloc fuel st p n = Some (p, st).

(** A free block whose capacity is exactly the rounded request is never
    the block the first-fit loop hands out. *)
Definition exact_fit_never_selected (fuel : nat) (st : state) (s : Z) : Prop :=
  forall l b r,
    free_blocks fuel st = Some l ->
    In b l ->
    get_size st b = align_up s ->
    tumalloc_scan fuel st (align_up s) (HEAD st) NULL = Some (Some r) ->
    fst r <> b + sizeof_size_t.

(** The scenario "Allocate [s], Release the result, Allocate [s] again":
    the two addresses returned and the final state. *)
Definition allocate_release_allocate (fuel : nat) (st : state) (s : Z)
  : option (Z * Z * state) :=
  match tumalloc fuel st s with
  | Some (p, st1) =>
    match tufree fuel st1 p with
    | Some st2 =>
      match tumalloc fuel st2 s with
      | Some (q, st3) => Some (p, q, st3)
      | None => None
      end
    | None => None
    end
  | None => None
  end.

(** On an empty free list the second allocation returns the address of
    the first. *)
Definition released_block_reused (fuel : nat) (st : state) (s : Z) : Prop :=
  HEAD st = NULL ->
  0 < s ->
  forall p q st3,
    allocate_release_allocate fuel st s = Some (p, q, st3) -> q = p.


(** The scenario "Allocate 32 (A), Allocate 32 (B), Release A, Release B,
    Allocate [request]": the addresses A and B, the state before the last
    call, the address it returns and the final state. *)
Definition two_blocks_then_request (fuel : nat) (st : state) (request : Z)
  : option (Z * Z * state * Z * state) :=
  match tumalloc fuel st 32 with
  | Some (a, st1) =>
    match tumalloc fuel st1 32 with
    | Some (b, st2) =>
      match tufree fuel st2 a with
      | Some st3 =>
        match tufree fuel st3 b with
        | Some st4 =>
          match tumalloc fuel st4 request with
          | Some (q, st5) => Some (a, b, st4, q, st5)
          | None => None
          end
        | None => None
        end
      | None => None
      end
    | None => None
    end
  | None => None
  end.

(** The last request of the scenario, [64 + hdr] bytes, is answered from
    the span that starts at A's block, and the break does not move. *)
Definition merged_span_reused (fuel : nat) (st : state) (hdr : Z) : Prop :=
  forall a b st4 q st5,
    two_blocks_then_request fuel st (64 + hdr) = Some (a, b, st4, q, st5) ->
    q = a /\ brk st5 = brk st4.

(** What the scenario lets a caller see: A, B, the break before the last
    call, the address the last call returns, the break after it. *)
Definition scenario_view (r : Z * Z * state * Z * state) : Z * Z * Z * Z * Z :=
  let '(a, b, st4, q, st5) := r in (a, b, brk st4, q, brk st5).

(** No two blocks of the free list overlap, a block's range being its
    header of [hdr] bytes followed by its recorded capacity. *)
Definition free_list_disjoint (hdr : Z) (fuel : nat) (st : state) : Prop :=
  forall l,
    free_blocks fuel st = Some l ->
    spans_disjoint (map (block_span hdr st) l) = true.

(** Three allocations, the middle one of size zero, then the release of
    the two outer blocks. *)
Definition outer_blocks_released : list call :=
  [Allocate 32; Allocate 0; Allocate 32; Release 4104; Release 4152].

(** A free list holding one free block of capacity 64. *)
Definition one_free_block : list call := [Allocate 64; Release 4104].

(** ** Vocabulary for the properties of the free list *)

(** The test of [find_prev] on the block [c]: by the arithmetic of the
    source, modulo [2^64], [c] ends where [block] starts. *)
Definition ends_at (st : state) (block c : Z) : bool :=
  wrap (c + get_size st c + sizeof_free_block) =? block.

(** The 16-byte headers of the listed blocks are pairwise disjoint. *)
Fixpoint headers_apart (l : list Z) : Prop :=
  match l with
  | [] => True
  | c :: rest =>
    Forall (fun d => c + sizeof_free_block <= d \/ d + sizeof_free_block <= c) rest
    /\ headers_apart rest
  end.

(** The state in which [prev->next] has been given the link of [curr]. *)
Definition bypass (st : state) (prev curr : Z) : state :=
  put_next st prev (get_next st curr).


(** Two blocks of capacity 32 carved one after the other and released in
    that order: the free list is 4136 followed by 4096. *)
Definition two_free_blocks : list call :=
  [Allocate 32; Allocate 32; Release 4104; Release 4144].

(** Three blocks of capacity 32 with a block of capacity zero between
    each two; the first and the last are released, in that order. *)
Definition outer_of_three_released : list call :=
  [Allocate 32; Allocate 0; Allocate 32; Allocate 0; Allocate 32;
   Release 4104; Release 4200].

(** ** Words and memory accesses *)

Lemma wrap_range (x : Z) : 0 <= wrap x < WORD.
Proof. unfold wrap, WORD. apply Z.mod_pos_bound. reflexivity. Qed.

Lemma wrap_small (x : Z) : 0 <= x < WORD -> wrap x = x.
Proof. intro H. unfold wrap. now apply Z.mod_small. Qed.

(** The end of a block, computed modulo [2^64], is not the block itself
    unless its capacity plus 16 is a multiple of [2^64]. *)
Lemma block_end_not_self (b s : Z) :
  0 <= s -> s + sizeof_free_block < WORD ->
  wrap (b + s + sizeof_free_block) <> b.
Proof.
  intros H0 H1 E. unfold wrap, sizeof_free_block in *.
  pose proof (Z.mod_pos_bound (b + s + 16) WORD ltac:(reflexivity)) as R.
  pose proof (Z.div_mod (b + s + 16) WORD ltac:(discriminate)) as D.
  rewrite E in D, R. unfold WORD in *.
  assert (Q : (b + s + 16) / 2 ^ 64 <= 0 \/ 1 <= (b + s + 16) / 2 ^ 64) by lia.
  lia.
Qed.

Lemma byte_of_range (v i : Z) : 0 <= byte_of v i < 256.
Proof. unfold byte_of. apply Z.mod_pos_bound. reflexivity. Qed.

Lemma load64_range (m : memory) (a : Z) : 0 <= load64 m a < WORD.
Proof.
  unfold load64, WORD.
  pose proof (Z.mod_pos_bound (m a) 256 eq_refl).
  pose proof (Z.mod_pos_bound (m (a + 1)) 256 eq_refl).
  pose proof (Z.mod_pos_bound (m (a + 2)) 256 eq_refl).
  pose proof (Z.mod_pos_bound (m (a + 3)) 256 eq_refl).
  pose proof (Z.mod_pos_bound (m (a + 4)) 256 eq_refl).
  pose proof (Z.mod_pos_bound (m (a + 5)) 256 eq_refl).
  pose proof (Z.mod_pos_bound (m (a + 6)) 256 eq_refl).
  pose proof (Z.mod_pos_bound (m (a + 7)) 256 eq_refl).
  change (2 ^ 8) with 256. change (2 ^ 16) with 65536.
  change (2 ^ 24) with 16777216. change (2 ^ 32) with 4294967296.
  change (2 ^ 40) with 1099511627776. change (2 ^ 48) with 281474976710656.
  change (2 ^ 56) with 72057594037927936.
  change (2 ^ 64) with 18446744073709551616.
  lia.
Qed.

(** The eight bytes of a value put back together give the value modulo
    [2^64]. *)
Lemma div_step (v k : Z) : 0 <= k ->
  v / 2 ^ k = 256 * (v / 2 ^ (k + 8)) + (v / 2 ^ k) mod 256.
Proof.
  intro Hk. rewrite Z.pow_add_r by lia. rewrite <- Z.div_div by lia.
  change (2 ^ 8) with 256. apply Z.div_mod. discriminate.
Qed.

Lemma bytes_recompose (v : Z) :
  byte_of v 0 + 2 ^ 8 * byte_of v 1 + 2 ^ 16 * byte_of v 2
  + 2 ^ 24 * byte_of v 3 + 2 ^ 32 * byte_of v 4 + 2 ^ 40 * byte_of v 5
  + 2 ^ 48 * byte_of v 6 + 2 ^ 56 * byte_of v 7 = wrap v.
Proof.
  unfold byte_of, wrap, WORD.
  change (8 * 0) with 0. change (8 * 1) with 8. change (8 * 2) with 16.
  change (8 * 3) with 24. change (8 * 4) with 32. change (8 * 5) with 40.
  change (8 * 6) with 48. change (8 * 7) with 56.
  assert (D0 : v / 2 ^ 0 = 256 * (v / 2 ^ 8) + (v / 2 ^ 0) mod 256)
    by (apply (div_step v 0); lia).
  assert (D1 : v / 2 ^ 8 = 256 * (v / 2 ^ 16) + (v / 2 ^ 8) mod 256)
    by (apply (div_step v 8); lia).
  assert (D2 : v / 2 ^ 16 = 256 * (v / 2 ^ 24) + (v / 2 ^ 16) mod 256)
    by (apply (div_step v 16); lia).
  assert (D3 : v / 2 ^ 24 = 256 * (v / 2 ^ 32) + (v / 2 ^ 24) mod 256)
    by (apply (div_step v 24); lia).
  assert (D4 : v / 2 ^ 32 = 256 * (v / 2 ^ 40) + (v / 2 ^ 32) mod 256)
    by (apply (div_step v 32); lia).
  assert (D5 : v / 2 ^ 40 = 256 * (v / 2 ^ 48) + (v / 2 ^ 40) mod 256)
    by (apply (div_step v 40); lia).
  assert (D6 : v / 2 ^ 48 = 256 * (v / 2 ^ 56) + (v / 2 ^ 48) mod 256)
    by (apply (div_step v 48); lia).
  assert (D7 : v / 2 ^ 56 = 256 * (v / 2 ^ 64) + (v / 2 ^ 56) mod 256)
    by (apply (div_step v 56); lia).
  assert (E : v / 2 ^ 0 = v) by (change (2 ^ 0) with 1; apply Z.div_1_r).
  rewrite (Z.mod_eq v (2 ^ 64)) by lia.
  generalize dependent (v / 2 ^ 64). generalize dependent (v / 2 ^ 56).
  generalize dependent (v / 2 ^ 48). generalize dependent (v / 2 ^ 40).
  generalize dependent (v / 2 ^ 32). generalize dependent (v / 2 ^ 24).
  generalize dependent (v / 2 ^ 16). generalize dependent (v / 2 ^ 8).
  generalize dependent (v / 2 ^ 0).
  intros q0 E q1 D0 q2 D1 q3 D2 q4 D3 q5 D4 q6 D5 q7 D6 q8 D7.
  change (2 ^ 8) with 256. change (2 ^ 16) with 65536.
  change (2 ^ 24) with 16777216. change (2 ^ 32) with 4294967296.
  change (2 ^ 40) with 1099511627776. change (2 ^ 48) with 281474976710656.
  change (2 ^ 56) with 72057594037927936.
  change (2 ^ 64) with 18446744073709551616.
  lia.
Qed.

Lemma store64_inside (m : memory) (a v i : Z) :
  0 <= i < 8 -> store64 m a v (a + i) = byte_of v i.
Proof.
  intro Hi. unfold store64.
  replace ((a <=? a + i) && (a + i <? a + 8)) with true
    by (symmetry; apply andb_true_iff; split; [apply Z.leb_le | apply Z.ltb_lt]; lia).
  f_equal. lia.
Qed.

Lemma store64_outside (m : memory) (a v x : Z) :
  x < a \/ a + 8 <= x -> store64 m a v x = m x.
Proof.
  intro Hx. unfold store64.
  destruct (a <=? x) eqn:E1; destruct (x <? a + 8) eqn:E2; cbn; try reflexivity.
  apply Z.leb_le in E1. apply Z.ltb_lt in E2. lia.
Qed.

Lemma load64_store64_same (m : memory) (a v : Z) :
  load64 (store64 m a v) a = wrap v.
Proof.
  unfold load64.
  pose proof (store64_inside m a v 0 ltac:(lia)) as E0.
  rewrite Z.add_0_r in E0. rewrite E0.
  rewrite !store64_inside by lia.
  rewrite !(Z.mod_small (byte_of v _) 256) by apply byte_of_range.
  apply bytes_recompose.
Qed.

Lemma load64_store64_other (m : memory) (a v b : Z) :
  a + 8 <= b \/ b + 8 <= a -> load64 (store64 m a v) b = load64 m b.
Proof.
  intro H. unfold load64.
  rewrite !store64_outside by lia. reflexivity.
Qed.

Lemma align_up_spec (s : Z) : align_up s = 16 * (wrap (s + 15) / 16).
Proof.
  unfold align_up, ALIGNMENT.
  assert (E : wrap (wrap (s + 16) - 1) = wrap (s + 15)).
  { unfold wrap. rewrite Zminus_mod_idemp_l. f_equal. lia. }
  rewrite E.
  pose proof (wrap_range (s + 15)) as R. set (x := wrap (s + 15)) in *.
  change (wrap (Z.lnot (16 - 1))) with (Z.ldiff (Z.ones 64) (Z.ones 4)).
  assert (X : Z.land x (Z.ldiff (Z.ones 64) (Z.ones 4)) = Z.ldiff x (Z.ones 4)).
  { apply Z.bits_inj'. intros n Hn.
    rewrite Z.land_spec, !Z.ldiff_spec.
    destruct (Z.ltb_spec n 64) as [L | L].
    - rewrite (Z.ones_spec_low 64 n) by lia. reflexivity.
    - rewrite (Z.ones_spec_high 64 n) by lia.
      assert (T : Z.testbit x n = false).
      { destruct (Z.eq_dec x 0) as [-> | NZ]; [apply Z.bits_0 |].
        apply Z.bits_above_log2; [lia |].
        apply Z.lt_le_trans with 64; [| lia].
        apply Z.log2_lt_pow2; unfold WORD in R; lia. }
      rewrite T. reflexivity. }
  rewrite X, Z.ldiff_ones_r by lia.
  rewrite Z.shiftr_div_pow2, Z.shiftl_mul_pow2 by lia.
  change (2 ^ 4) with 16. lia.
Qed.

Lemma align_up_bounds (s : Z) :
  0 <= s -> s + 15 < WORD ->
  s <= align_up s < s + 16 /\ align_up s mod 16 = 0.
Proof.
  intros H0 H1. rewrite align_up_spec, wrap_small by lia.
  pose proof (Z.div_mod (s + 15) 16 ltac:(lia)) as D.
  pose proof (Z.mod_pos_bound (s + 15) 16 ltac:(lia)) as B.
  split; [lia |].
  rewrite Z.mul_comm. apply Z.mod_mul. lia.
Qed.

Lemma align_up_window (s : Z) :
  0 < s <= WORD - 32 ->
  16 <= align_up s <= WORD - 32 /\ s <= align_up s.
Proof.
  intro H. destruct (align_up_bounds s) as [Ha Hm]; [lia | unfold WORD in *; lia |].
  pose proof (Z.div_mod (align_up s) 16 ltac:(lia)) as D. rewrite Hm in D.
  change WORD with (16 * 1152921504606846976) in *. lia.
Qed.

(** ** Release and Resize on their trivial paths *)

(** C9.  Releasing the null pointer returns at once with the state as it
    was, whatever the fuel, and resizing the null pointer is the very call
    [tumalloc] of the new size: same result, same final state. *)
Theorem null_release_and_null_resize (fuel : nat) (st : state) :
  tufree fuel st NULL = Some st
  /\ forall n : Z, turealloc fuel st NULL n = tumalloc fuel st n.
Proof.
  split.
  - reflexivity.
  - intro n. reflexivity.
Qed.

(** C7, amended.  For a non-null pointer and a new size that is not zero
    and does not exceed the capacity recorded in the word before the
    pointer, Resize returns the pointer itself and the whole state (memory,
    free list, break) is the one before the call: nothing is allocated,
    copied or written. *)
Theorem resize_within_capacity (fuel : nat) (st : state) (p n : Z) :
  p <> NULL ->
  0 < n <= load64 (mem st) (p - sizeof_size_t) ->
  turealloc fuel st p n = Some (p, st).
Proof.
  intros Hp [Hn Hcap]. unfold turealloc.
  destruct (Z.eqb_spec p NULL) as [E | _]; [contradiction |].
  destruct (Z.eqb_spec n 0) as [E | _]; [lia |].
  destruct (Z.leb_spec n (load64 (mem st) (p - sizeof_size_t))) as [_ | L];
    [reflexivity | lia].
Qed.

Lemma resize_within_capacity_witness :
  let st := heap_after 1 (2 ^ 20) [Allocate 32] in
  4104 <> NULL
  /\ 0 < 20 <= load64 (mem st) (4104 - sizeof_size_t)
  /\ turealloc 0 st 4104 20 = Some (4104, st).
Proof.
  intro st.
  assert (Hp : 4104 <> NULL) by discriminate.
  assert (Hn : 0 < 20 <= load64 (mem st) (4104 - sizeof_size_t))
    by (vm_compute; split; [reflexivity | discriminate]).
  split; [exact Hp |]. split; [exact Hn |].
  exact (resize_within_capacity 0 st 4104 20 Hp Hn).
Defined.

(** C7 as worded fails at the new size [0], which is within every
    capacity: the block obtained by [Allocate 32] is released (it becomes
    the head of the free list) and the null pointer is returned. *)
Lemma resize_to_zero_releases :
  let st := heap_after 1 (2 ^ 20) [Allocate 32] in
  option_map fst (turealloc 2 st 4104 0) = Some NULL
  /\ option_map (fun r => HEAD (snd r)) (turealloc 2 st 4104 0) = Some 4096
  /\ HEAD st = NULL
  /\ ~ resize_returns_same 2 st 4104 0.
Proof.
  intro st. split; [reflexivity |]. split; [reflexivity |].
  split; [reflexivity |].
  intro H.
  assert (Hp : 4104 <> NULL) by discriminate.
  assert (Hn : 0 <= 0 <= load64 (mem st) (4104 - sizeof_size_t))
    by (vm_compute; split; discriminate).
  specialize (H Hp Hn).
  apply (f_equal (option_map fst)) in H.
  vm_compute in H. discriminate H.
Qed.

(** ** Failure of the allocation leaves everything in place *)

Lemma tumalloc_scan_not_null (fuel : nat) (st : state) (size : Z) :
  forall curr prev p st',
    0 <= curr ->
    tumalloc_scan fuel st size curr prev = Some (Some (p, st')) ->
    p <> NULL.
Proof.
  induction fuel as [| fuel IH]; intros curr prev p st' Hc H; cbn in H.
  - discriminate.
  - destruct (Z.eqb_spec curr NULL) as [E | NE]; [discriminate |].
    destruct (wrap (size + sizeof_free_block) <=? get_size st curr).
    + injection H as <- _. unfold NULL, sizeof_size_t in *. lia.
    + apply (IH _ _ _ _ (proj1 (load64_range _ _)) H).
Qed.

Lemma do_alloc_null (st st1 : state) (size : Z) :
  0 < brk st -> do_alloc st size = (NULL, st1) -> st1 = st.
Proof.
  intros Hb H. unfold do_alloc, sbrk in H.
  destruct ((brk_min st <=? brk st + to_signed size)
            && (brk st + to_signed size <=? brk_max st)).
  - destruct (Z.eqb_spec (brk st) (-1)) as [E | NE]; [lia |].
    injection H as E _. unfold NULL in E. lia.
  - cbn in H. now injection H.
Qed.

Lemma tumalloc_grow_null (st st1 : state) (size : Z) :
  0 < brk st -> tumalloc_grow st size = (NULL, st1) -> st1 = st.
Proof.
  intros Hb H. unfold tumalloc_grow in H.
  destruct (do_alloc st (wrap (size + sizeof_size_t))) as [ptr st2] eqn:D.
  destruct (Z.eqb_spec ptr NULL) as [E | NE].
  - subst ptr. injection H as <-. now apply do_alloc_null in D.
  - injection H as E _. exfalso.
    unfold do_alloc, sbrk in D.
    destruct ((brk_min st <=? brk st + to_signed (wrap (size + sizeof_size_t)))
              && (brk st + to_signed (wrap (size + sizeof_size_t)) <=? brk_max st)).
    + destruct (brk st =? -1); injection D as <- _;
        unfold NULL, sizeof_size_t in *; lia.
    + cbn in D. injection D as <- _. now apply NE.
Qed.

(** An allocation that returns the null pointer has changed nothing. *)
Lemma tumalloc_null_unchanged (fuel : nat) (st st1 : state) (size : Z) :
  sane st -> tumalloc fuel st size = Some (NULL, st1) -> st1 = st.
Proof.
  intros [Hh Hb] H. unfold tumalloc in H.
  destruct (tumalloc_scan fuel st (align_up size) (HEAD st) NULL)
    as [[[p st'] |] |] eqn:S; try discriminate.
  - injection H as -> ->.
    now apply tumalloc_scan_not_null in S.
  - injection H as H. now apply tumalloc_grow_null in H.
Qed.

(** C8.  When Resize needs a larger block (the pointer is not null, the
    new size is not zero and exceeds the recorded capacity) and the
    allocation of the new size returns null, Resize returns null and the
    state after the call is the state before it: the old block is not
    released, no byte is written, the free list and the break are as
    before. *)
Theorem resize_failure_leaves_block (fuel : nat) (st : state) (p n : Z) :
  sane st ->
  p <> NULL ->
  n <> 0 ->
  load64 (mem st) (p - sizeof_size_t) < n ->
  option_map fst (tumalloc fuel st n) = Some NULL ->
  turealloc fuel st p n = Some (NULL, st).
Proof.
  intros Hs Hp Hn Hcap Hfail. unfold turealloc.
  destruct (Z.eqb_spec p NULL) as [E | _]; [contradiction |].
  destruct (Z.eqb_spec n 0) as [E | _]; [contradiction |].
  destruct (Z.leb_spec n (load64 (mem st) (p - sizeof_size_t))) as [L | _];
    [lia |].
  destruct (tumalloc fuel st n) as [[q st1] |] eqn:T; [| discriminate].
  cbn in Hfail. injection Hfail as ->.
  apply tumalloc_null_unchanged in T; [| exact Hs]. subst st1.
  reflexivity.
Qed.

Lemma resize_failure_leaves_block_witness :
  let st := heap_after 1 4136 [Allocate 32] in
  turealloc 1 st 4104 64 = Some (NULL, st).
Proof.
  intro st.
  apply resize_failure_leaves_block.
  - split; vm_compute; [discriminate | reflexivity].
  - discriminate.
  - discriminate.
  - vm_compute. reflexivity.
  - vm_compute. reflexivity.
Defined.

(** ** Zero-initialised allocation *)



(** ** The first-fit loop *)

Lemma tumalloc_scan_selected (fuel : nat) (st : state) (size : Z) :
  forall curr prev p st',
    tumalloc_scan fuel st size curr prev = Some (Some (p, st')) ->
    exists b,
      b <> NULL /\ p = b + sizeof_size_t
      /\ wrap (size + sizeof_free_block) <= get_size st b.
Proof.
  induction fuel as [| fuel IH]; intros curr prev p st' H; cbn in H.
  - discriminate.
  - destruct (Z.eqb_spec curr NULL) as [E | NE]; [discriminate |].
    destruct (Z.leb_spec (wrap (size + sizeof_free_block)) (get_size st curr))
      as [L | L].
    + injection H as <- _. exists curr. auto.
    + apply (IH _ _ _ _ H).
Qed.

Lemma tumalloc_scan_falls_through (fuel : nat) (st : state) (size : Z) :
  forall curr prev l,
    free_blocks_from fuel st curr = Some l ->
    Forall (fun b => get_size st b < wrap (size + sizeof_free_block)) l ->
    tumalloc_scan fuel st size curr prev = Some None.
Proof.
  induction fuel as [| fuel IH]; intros curr prev l Hl Hall; cbn in Hl |- *.
  - discriminate.
  - destruct (Z.eqb_spec curr NULL) as [E | NE]; [reflexivity |].
    destruct (free_blocks_from fuel st (get_next st curr)) as [l' |] eqn:El;
      [| discriminate].
    injection Hl as <-. inversion Hall as [| ? ? Hc Hrest]; subst.
    destruct (Z.leb_spec (wrap (size + sizeof_free_block)) (get_size st curr))
      as [L | L]; [lia |].
    apply (IH _ _ _ El Hrest).
Qed.

(** C10, amended.  The loop hands out a block only when its recorded
    capacity is at least the rounded request plus the size of a free-block
    header, that sum taken in 64-bit arithmetic.  So whenever the sum does
    not wrap, a block whose capacity equals the rounded request is not
    handed out, and when every block of the free list is of that capacity
    the call is answered by heap growth. *)
Theorem first_fit_needs_header_slack (fuel : nat) (st : state) (s : Z) :
  (forall p st',
      tumalloc_scan fuel st (align_up s) (HEAD st) NULL = Some (Some (p, st')) ->
      exists b,
        b <> NULL /\ p = b + sizeof_size_t
        /\ wrap (align_up s + sizeof_free_block) <= get_size st b
        /\ (align_up s + sizeof_free_block < WORD -> get_size st b <> align_up s))
  /\ (forall l,
         align_up s + sizeof_free_block < WORD ->
         free_blocks fuel st = Some l ->
         Forall (fun b => get_size st b = align_up s) l ->
         tumalloc fuel st s = Some (tumalloc_grow st (align_up s))).
Proof.
  assert (A : 0 <= align_up s).
  { rewrite align_up_spec. pose proof (wrap_range (s + 15)) as R.
    apply Z.mul_nonneg_nonneg; [lia |]. apply Z.div_pos; lia. }
  split.
  - intros p st' H.
    destruct (tumalloc_scan_selected _ _ _ _ _ _ _ H) as [b [Hb [Hp Hc]]].
    exists b. repeat split; auto.
    intros Hw E. rewrite wrap_small in Hc by (unfold sizeof_free_block in *; lia).
    unfold sizeof_free_block in *. lia.
  - intros l Hw Hl Hall. unfold tumalloc.
    rewrite (tumalloc_scan_falls_through fuel st (align_up s) (HEAD st) NULL l Hl);
      [reflexivity |].
    apply Forall_impl with (2 := Hall). intros b ->.
    rewrite wrap_small by (unfold sizeof_free_block in *; lia).
    unfold sizeof_free_block. lia.
Qed.

Lemma first_fit_needs_header_slack_witness :
  let st := heap_after 2 (2 ^ 20) [Allocate 32; Release 4104] in
  free_blocks 2 st = Some [4096]
  /\ get_size st 4096 = align_up 32
  /\ tumalloc 2 st 32 = Some (tumalloc_grow st (align_up 32))
  /\ option_map fst (tumalloc 2 st 32) = Some 4144.
Proof.
  intro st.
  split; [reflexivity |]. split; [reflexivity |].
  split; [| reflexivity].
  apply (proj2 (first_fit_needs_header_slack 2 st 32) [4096]).
  - vm_compute. reflexivity.
  - reflexivity.
  - constructor; [reflexivity | constructor].
Defined.

(** C10 as worded fails where the sum wraps.  A caller allocates 16 bytes,
    then [2^64 - 16] bytes (granted: the increment passed to [sbrk] reads
    as [-8]), releases the latter and asks for [2^64 - 16] bytes again: the
    free block of exactly that capacity is handed out. *)
Lemma exact_fit_selected_on_wrap :
  let st := heap_after 2 (2 ^ 20)
              [Allocate 16; Allocate (WORD - 16); Release 4128] in
  free_blocks 2 st = Some [4120]
  /\ get_size st 4120 = align_up (WORD - 16)
  /\ option_map fst (tumalloc 2 st (WORD - 16)) = Some (4120 + sizeof_size_t)
  /\ ~ exact_fit_never_selected 2 st (WORD - 16).
Proof.
  intro st.
  split; [reflexivity |]. split; [reflexivity |]. split; [reflexivity |].
  intro H.
  assert (E : match tumalloc_scan 2 st (align_up (WORD - 16)) (HEAD st) NULL with
              | Some (Some x) => Some (fst x)
              | _ => None
              end = Some 4128) by (vm_compute; reflexivity).
  destruct (tumalloc_scan 2 st (align_up (WORD - 16)) (HEAD st) NULL)
    as [[r |] |] eqn:S; try discriminate E.
  injection E as E.
  apply (H [4120] 4120 r); [reflexivity | now left | reflexivity | exact S |].
  rewrite E. reflexivity.
Qed.

(** ** Allocate, Release, Allocate *)

Lemma to_signed_range (x : Z) : - 2 ^ 63 <= to_signed x < 2 ^ 63.
Proof.
  unfold to_signed. pose proof (wrap_range x) as R. unfold WORD in *.
  destruct (Z.ltb_spec (wrap x) (2 ^ 63)); lia.
Qed.

Lemma tumalloc_empty_list (fuel : nat) (st : state) (s : Z) :
  (1 <= fuel)%nat -> HEAD st = NULL ->
  tumalloc fuel st s = Some (tumalloc_grow st (align_up s)).
Proof.
  intros Hf Hh. unfold tumalloc. rewrite Hh.
  destruct fuel as [| fuel]; [lia |]. reflexivity.
Qed.

Lemma tumalloc_grow_granted (st : state) (size : Z) :
  0 < brk st ->
  brk_min st <= brk st + to_signed (wrap (size + sizeof_size_t)) <= brk_max st ->
  tumalloc_grow st size = (brk st + sizeof_size_t, grown st size).
Proof.
  intros Hb Hg. unfold tumalloc_grow, do_alloc, sbrk.
  set (d := to_signed (wrap (size + sizeof_size_t))) in *.
  replace ((brk_min st <=? brk st + d) && (brk st + d <=? brk_max st)) with true
    by (symmetry; apply andb_true_iff; split; apply Z.leb_le; lia).
  destruct (Z.eqb_spec (brk st) (-1)) as [E | _]; [lia |].
  destruct (Z.eqb_spec (brk st) NULL) as [E | _]; [unfold NULL in E; lia |].
  reflexivity.
Qed.

Lemma tumalloc_grow_cases (st : state) (size : Z) :
  let d := to_signed (wrap (size + sizeof_size_t)) in
  (fst (tumalloc_grow st size) = NULL
   /\ mem (snd (tumalloc_grow st size)) = mem st)
  \/ tumalloc_grow st size = (brk st + sizeof_size_t, grown st size).
Proof.
  intro d. unfold tumalloc_grow, do_alloc, sbrk. fold d.
  destruct ((brk_min st <=? brk st + d) && (brk st + d <=? brk_max st)).
  - destruct (Z.eqb_spec (brk st) (-1)) as [E | NE].
    + left. split; reflexivity.
    + destruct (Z.eqb_spec (brk st) NULL) as [E | NE'].
      * left. split; reflexivity.
      * right. reflexivity.
  - left. split; reflexivity.
Qed.

Lemma tumalloc_grow_HEAD (st : state) (size : Z) :
  HEAD (snd (tumalloc_grow st size)) = HEAD st.
Proof.
  destruct (tumalloc_grow_cases st size) as [[_ _] | E].
  - unfold tumalloc_grow, do_alloc, sbrk.
    destruct ((brk_min st <=? brk st + to_signed (wrap (size + sizeof_size_t)))
              && (brk st + to_signed (wrap (size + sizeof_size_t)) <=? brk_max st)).
    + destruct (brk st =? -1); [reflexivity |].
      destruct (brk st =? NULL); reflexivity.
    + reflexivity.
  - rewrite E. reflexivity.
Qed.

(** Releasing the only block of an otherwise empty list: it becomes the
    head and no neighbour is found. *)
Lemma tufree_single (fuel : nat) (st : state) (b size : Z) :
  (2 <= fuel)%nat ->
  HEAD st = NULL -> 0 < b -> 0 <= size < WORD - sizeof_free_block ->
  get_size st b = size ->
  tufree fuel st (b + sizeof_size_t)
  = Some (set_HEAD (put_next st b NULL) b).
Proof.
  intros Hf Hh Hb Hs Hsz. unfold tufree.
  destruct (Z.eqb_spec (b + sizeof_size_t) NULL) as [E | _];
    [unfold NULL, sizeof_size_t in E; lia |].
  replace (b + sizeof_size_t - sizeof_size_t) with b by lia.
  rewrite Hh.
  set (st2 := set_HEAD (put_next st b NULL) b).
  assert (Gs : get_size st2 b = size).
  { unfold st2, get_size, put_next, off_size, off_next. cbn [mem set_HEAD set_mem].
    rewrite load64_store64_other by lia. exact Hsz. }
  assert (Gn : get_next st2 b = NULL).
  { unfold st2, get_next, put_next, off_next. cbn [mem set_HEAD set_mem].
    rewrite load64_store64_same. reflexivity. }
  unfold coalesce.
  destruct (Z.eqb_spec b NULL) as [E | _]; [unfold NULL in E; lia |].
  destruct fuel as [| [| fuel]]; try lia.
  assert (P : find_prev (S (S fuel)) st2 b = Some NULL).
  { unfold find_prev. change (HEAD st2) with b. cbn [find_prev_from].
    destruct (Z.eqb_spec b NULL) as [E | _]; [unfold NULL in E; lia |].
    rewrite Gs, Gn.
    destruct (Z.eqb_spec (wrap (b + size + sizeof_free_block)) b) as [E | _];
      [exfalso; revert E; apply block_end_not_self; lia |].
    reflexivity. }
  assert (N : find_next (S (S fuel)) st2 b = Some NULL).
  { unfold find_next. change (HEAD st2) with b. cbn [find_next_from].
    destruct (Z.eqb_spec b NULL) as [E | _]; [unfold NULL in E; lia |].
    rewrite Gs, Gn.
    destruct (Z.eqb_spec b (wrap (b + size + sizeof_free_block))) as [E | _];
      [exfalso; symmetry in E; revert E; apply block_end_not_self; lia |].
    reflexivity. }
  rewrite P, N. reflexivity.
Qed.

(** A rounded size below [2^63 - 8] reaches [sbrk] as the positive
    increment it is. *)
Lemma increment_positive (size : Z) :
  0 <= size -> size + sizeof_size_t < 2 ^ 63 ->
  to_signed (wrap (size + sizeof_size_t)) = size + sizeof_size_t.
Proof.
  intros H0 H1. unfold sizeof_size_t in *.
  rewrite wrap_small by (unfold WORD; lia).
  unfold to_signed. rewrite wrap_small by (unfold WORD; lia).
  destruct (Z.ltb_spec (size + 8) (2 ^ 63)); [reflexivity | lia].
Qed.

Lemma align_up_window_pos (s : Z) :
  0 < s <= 2 ^ 63 - 32 ->
  16 <= align_up s <= 2 ^ 63 - 32 /\ s <= align_up s.
Proof.
  intro H. destruct (align_up_bounds s) as [Ha Hm]; [lia | unfold WORD; lia |].
  pose proof (Z.div_mod (align_up s) 16 ltac:(lia)) as D. rewrite Hm in D.
  change (2 ^ 63) with (16 * 576460752303423488) in *. lia.
Qed.

(** C1, amended.  On an empty free list, for a size between 1 and
    [2^63 - 32] whose first allocation is granted by the system, the block
    released is not handed out again: its capacity is the rounded request,
    short of the rounded request plus a free-block header that first-fit
    asks for.  The three calls all return; the released block stays at the
    head of the list with its size; the second allocation either fails,
    the break staying where the first call left it, or is a fresh block
    carved at that break, right after the released one, the break moving
    up once more. *)
Theorem released_exact_block_not_reused (fuel : nat) (st : state) (s : Z) :
  (2 <= fuel)%nat ->
  HEAD st = NULL ->
  0 < brk st ->
  0 < s <= 2 ^ 63 - 32 ->
  brk_min st <= brk st + align_up s + sizeof_size_t <= brk_max st ->
  exists q st3,
    allocate_release_allocate fuel st s = Some (brk st + sizeof_size_t, q, st3)
    /\ q <> brk st + sizeof_size_t
    /\ HEAD st3 = brk st
    /\ get_size st3 (brk st) = align_up s
    /\ ((q = NULL /\ brk st3 = brk st + align_up s + sizeof_size_t)
        \/ (q = brk st + align_up s + sizeof_size_t + sizeof_size_t
            /\ brk st3 = brk st + 2 * (align_up s + sizeof_size_t)
            /\ get_size st3 (brk st + align_up s + sizeof_size_t) = align_up s)).
Proof.
  intros Hf Hh Hb Hs Hg.
  destruct (align_up_window_pos s Hs) as [Ha _].
  set (size := align_up s) in *. set (b := brk st) in *.
  assert (Hsize : 0 <= size < WORD - sizeof_free_block)
    by (unfold WORD, sizeof_free_block; lia).
  assert (D : to_signed (wrap (size + sizeof_size_t)) = size + sizeof_size_t)
    by (apply increment_positive; unfold sizeof_size_t; lia).
  unfold allocate_release_allocate.
  rewrite tumalloc_empty_list by (auto; lia). fold size.
  rewrite tumalloc_grow_granted by (fold b; rewrite ?D; auto; lia). fold b.
  set (st1 := grown st size).
  assert (B1 : brk st1 = b + size + sizeof_size_t)
    by (unfold st1, grown; cbn [brk]; fold b; rewrite D; lia).
  assert (G1 : get_size st1 b = size).
  { unfold st1, grown, get_size, off_size. cbn [mem]. fold b.
    rewrite Z.add_0_r, load64_store64_same. apply wrap_small.
    unfold WORD, sizeof_free_block in *. lia. }
  rewrite (tufree_single fuel st1 b size Hf Hh Hb Hsize G1).
  set (st2 := set_HEAD (put_next st1 b NULL) b).
  assert (B2 : brk st2 = b + size + sizeof_size_t) by exact B1.
  assert (G2 : get_size st2 b = size).
  { unfold st2, get_size, put_next, off_size, off_next. cbn [mem set_HEAD set_mem].
    rewrite load64_store64_other by lia. exact G1. }
  assert (N2 : get_next st2 b = NULL).
  { unfold st2, get_next, put_next, off_next. cbn [mem set_HEAD set_mem].
    rewrite load64_store64_same. reflexivity. }
  assert (T : tumalloc fuel st2 s = Some (tumalloc_grow st2 size)).
  { unfold tumalloc. fold size. change (HEAD st2) with b.
    destruct fuel as [| [| fuel]]; try lia.
    cbn [tumalloc_scan].
    destruct (Z.eqb_spec b NULL) as [E | _]; [unfold NULL, b in E; lia |].
    rewrite G2, N2.
    rewrite wrap_small by (unfold sizeof_free_block, WORD in *; lia).
    destruct (Z.leb_spec (size + sizeof_free_block) size) as [L | _];
      [unfold sizeof_free_block in L; lia |].
    reflexivity. }
  rewrite T.
  destruct (tumalloc_grow st2 size) as [q st3] eqn:G.
  exists q, st3. split; [reflexivity |].
  destruct (Z.eq_dec q NULL) as [Eq | Nq].
  - subst q. apply tumalloc_grow_null in G;
      [| rewrite B2; unfold sizeof_size_t; lia]. subst st3.
    split; [unfold NULL, sizeof_size_t; unfold b in *; lia |].
    split; [reflexivity |]. split; [exact G2 |].
    left. split; [reflexivity | exact B2].
  - destruct (tumalloc_grow_cases st2 size) as [[Eq _] | E]; rewrite G in *;
      [cbn in Eq; contradiction |].
    injection E as -> ->. fold b. rewrite D.
    split; [unfold sizeof_size_t; lia |]. split; [reflexivity |].
    split.
    + unfold grown, get_size, off_size. cbn [mem]. rewrite B2.
      rewrite load64_store64_other by (unfold sizeof_size_t; lia). exact G2.
    + right. split; [lia |]. split.
      * unfold grown. cbn [brk]. rewrite B2, D. lia.
      * unfold grown, get_size, off_size. cbn [mem]. rewrite B2, Z.add_0_r.
        rewrite load64_store64_same. apply wrap_small.
        unfold WORD, sizeof_free_block in *. lia.
Qed.

Lemma released_exact_block_not_reused_witness :
  let st := fresh_heap 4096 (2 ^ 20) in
  exists q st3,
    allocate_release_allocate 2 st 32 = Some (4104, q, st3)
    /\ q <> 4104 /\ HEAD st3 = 4096 /\ get_size st3 4096 = 32
    /\ ((q = NULL /\ brk st3 = 4136)
        \/ (q = 4144 /\ brk st3 = 4176 /\ get_size st3 4136 = 32)).
Proof.
  intro st.
  apply (released_exact_block_not_reused 2 st 32).
  - apply le_n.
  - reflexivity.
  - reflexivity.
  - split; [reflexivity | discriminate].
  - vm_compute. split; discriminate.
Defined.

(** C1 as worded fails for 32 bytes on a fresh heap: the first call
    returns 4104, the call after the release returns 4144. *)
Lemma released_block_not_reused_32 :
  let st := fresh_heap 4096 (2 ^ 20) in
  option_map (fun r => (fst (fst r), snd (fst r)))
             (allocate_release_allocate 2 st 32) = Some (4104, 4144)
  /\ ~ released_block_reused 2 st 32.
Proof.
  intro st.
  assert (E : option_map (fun r => (fst (fst r), snd (fst r)))
                         (allocate_release_allocate 2 st 32) = Some (4104, 4144))
    by (vm_compute; reflexivity).
  split; [exact E |].
  intro H.
  destruct (allocate_release_allocate 2 st 32) as [[[p q] st3] |] eqn:A;
    [| discriminate E].
  cbn in E. injection E as Ep Eq.
  assert (Q : q = p) by (apply (H eq_refl eq_refl p q st3); exact A).
  subst p q. discriminate Q.
Qed.

(** ** What an allocation returns *)






(** ** Two blocks carved one after the other *)

Ltac mem_simpl :=
  unfold get_size, get_next, put_size, put_next, set_HEAD, set_mem, grown,
    off_size, off_next;
  cbn [mem HEAD brk brk_min brk_max];
  rewrite ?Z.add_0_r;
  repeat first [ rewrite load64_store64_same
               | rewrite load64_store64_other by lia ].

Lemma tumalloc_grows_on_empty (fuel : nat) (st : state) (s : Z) :
  (1 <= fuel)%nat ->
  HEAD st = NULL ->
  0 < brk st ->
  brk_min st <= brk st + to_signed (wrap (align_up s + sizeof_size_t)) <= brk_max st ->
  tumalloc fuel st s = Some (brk st + sizeof_size_t, grown st (align_up s)).
Proof.
  intros Hf Hh Hb Hg.
  rewrite tumalloc_empty_list by assumption.
  now rewrite tumalloc_grow_granted.
Qed.

(** Releasing a second block when the list holds one block that is not
    its neighbour by the header arithmetic of [coalesce]. *)
Lemma tufree_second (fuel : nat) (st : state) (b c sb sc : Z) :
  (3 <= fuel)%nat ->
  HEAD st = b -> 0 < b < WORD -> 0 < c ->
  b + 16 <= c \/ c + 16 <= b ->
  get_size st b = sb -> get_next st b = NULL -> get_size st c = sc ->
  wrap (b + sb + sizeof_free_block) <> c ->
  wrap (c + sc + sizeof_free_block) <> b ->
  0 <= sb -> 0 <= sc < WORD - sizeof_free_block ->
  tufree fuel st (c + sizeof_size_t) = Some (set_HEAD (put_next st c b) c).
Proof.
  intros Hf Hh Hb Hc Hsep Gb Nb Gc Hnp Hnn Hsb Hsc. unfold tufree.
  destruct (Z.eqb_spec (c + sizeof_size_t) NULL) as [E | _];
    [unfold NULL, sizeof_size_t in E; lia |].
  replace (c + sizeof_size_t - sizeof_size_t) with c by lia.
  rewrite Hh.
  set (st2 := set_HEAD (put_next st c b) c).
  assert (Gc2 : get_size st2 c = sc).
  { unfold st2. revert Gc. mem_simpl. auto. }
  assert (Nc2 : get_next st2 c = b).
  { unfold st2. mem_simpl. apply wrap_small. lia. }
  assert (Gb2 : get_size st2 b = sb).
  { unfold st2. revert Gb. mem_simpl. auto. }
  assert (Nb2 : get_next st2 b = NULL).
  { unfold st2. revert Nb. mem_simpl. auto. }
  unfold coalesce.
  destruct (Z.eqb_spec c NULL) as [E | _]; [unfold NULL in E; lia |].
  destruct fuel as [| [| [| fuel]]]; try lia.
  assert (P : find_prev (S (S (S fuel))) st2 c = Some NULL).
  { unfold find_prev. change (HEAD st2) with c. cbn [find_prev_from].
    destruct (Z.eqb_spec c NULL) as [E | _]; [unfold NULL in E; lia |].
    rewrite Gc2, Nc2.
    destruct (Z.eqb_spec (wrap (c + sc + sizeof_free_block)) c) as [E | _];
      [exfalso; revert E; apply block_end_not_self; lia |].
    destruct (Z.eqb_spec b NULL) as [E | _]; [unfold NULL in E; lia |].
    rewrite Gb2, Nb2.
    destruct (Z.eqb_spec (wrap (b + sb + sizeof_free_block)) c) as [E | _];
      [contradiction |].
    reflexivity. }
  assert (N : find_next (S (S (S fuel))) st2 c = Some NULL).
  { unfold find_next. change (HEAD st2) with c. cbn [find_next_from].
    destruct (Z.eqb_spec c NULL) as [E | _]; [unfold NULL in E; lia |].
    rewrite Gc2, Nc2.
    destruct (Z.eqb_spec c (wrap (c + sc + sizeof_free_block))) as [E | _];
      [exfalso; symmetry in E; revert E; apply block_end_not_self; lia |].
    destruct (Z.eqb_spec b NULL) as [E | _]; [unfold NULL in E; lia |].
    destruct (Z.eqb_spec b (wrap (c + sc + sizeof_free_block))) as [E | _];
      [symmetry in E; contradiction |].
    rewrite Nb2. reflexivity. }
  rewrite P, N. reflexivity.
Qed.

(** C2.  What the code does on the scenario.  On a fresh free list with
    room for 168 more bytes of heap, the scenario runs to its end with A at
    the old break plus 8 and B at the old break plus 48: B's block starts 40
    bytes after A's, where A's 8-byte size word and 32 bytes end, while
    [coalesce] looks for a neighbour 48 bytes after A's block.  After both
    releases the two blocks are still separate entries of the free list, of
    capacity 32 each.  The last request, [64 + hdr] bytes for a header size
    [hdr] of 8 or 16, rounds to 80 and is answered by 88 more bytes of
    heap, at an address past both blocks. *)
Theorem two_blocks_request_grows (fuel : nat) (st : state) (hdr : Z) :
  (3 <= fuel)%nat ->
  HEAD st = NULL ->
  0 < brk st ->
  brk_min st <= brk st ->
  brk st + 168 <= brk_max st ->
  brk_max st < WORD ->
  hdr = sizeof_size_t \/ hdr = sizeof_free_block ->
  exists st4 st5,
    two_blocks_then_request fuel st (64 + hdr)
    = Some (brk st + 8, brk st + 48, st4, brk st + 88, st5)
    /\ free_blocks fuel st4 = Some [brk st + 40; brk st]
    /\ get_size st4 (brk st + 40) = 32
    /\ get_size st4 (brk st) = 32
    /\ align_up (64 + hdr) + sizeof_free_block = 96
    /\ brk st4 = brk st + 80
    /\ brk st5 = brk st + 168
    /\ HEAD st5 = HEAD st4.
Proof.
  intros Hf Hh Hb Hmin Hmax Hw Hhdr.
  set (b := brk st) in *.
  assert (R : align_up (64 + hdr) = 80)
    by (destruct Hhdr as [-> | ->]; reflexivity).
  unfold two_blocks_then_request.
  (* Allocate 32: A *)
  rewrite (tumalloc_grows_on_empty fuel st 32)
    by (try assumption; try lia;
        change (to_signed (wrap (align_up 32 + sizeof_size_t))) with 40; fold b; lia).
  change (align_up 32) with 32. fold b.
  set (st1 := grown st 32).
  assert (B1 : brk st1 = b + 40) by reflexivity.
  (* Allocate 32: B *)
  rewrite (tumalloc_grows_on_empty fuel st1 32)
    by (try assumption; try lia;
        change (to_signed (wrap (align_up 32 + sizeof_size_t))) with 40;
        rewrite ?B1; change (brk_min st1) with (brk_min st);
        change (brk_max st1) with (brk_max st); lia).
  change (align_up 32) with 32. rewrite B1.
  set (st2 := grown st1 32).
  assert (B2 : brk st2 = b + 80) by (unfold st2, grown; cbn [brk]; rewrite B1;
    change (to_signed (wrap (32 + sizeof_size_t))) with 40; lia).
  (* Release A *)
  assert (G2 : get_size st2 b = 32).
  { unfold st2, st1. mem_simpl. fold b.
    change (b + to_signed (wrap (32 + sizeof_size_t))) with (b + 40).
    mem_simpl. reflexivity. }
  change (b + 8) with (b + sizeof_size_t) at 1.
  rewrite (tufree_single fuel st2 b 32)
    by (try assumption; try lia; try reflexivity;
        unfold WORD, sizeof_free_block; lia).
  set (st3 := set_HEAD (put_next st2 b NULL) b).
  (* Release B *)
  assert (G3b : get_size st3 b = 32).
  { unfold st3. revert G2. mem_simpl. auto. }
  assert (N3b : get_next st3 b = NULL).
  { unfold st3. mem_simpl. reflexivity. }
  assert (G3c : get_size st3 (b + 40) = 32).
  { unfold st3, st2, st1. mem_simpl. fold b.
    change (b + to_signed (wrap (32 + sizeof_size_t))) with (b + 40).
    mem_simpl. reflexivity. }
  assert (E1 : wrap (b + 32 + sizeof_free_block) <> b + 40)
    by (rewrite wrap_small; unfold sizeof_free_block, WORD in *; lia).
  assert (E2 : wrap (b + 40 + 32 + sizeof_free_block) <> b)
    by (rewrite wrap_small; unfold sizeof_free_block, WORD in *; lia).
  rewrite (tufree_second fuel st3 b (b + 40) 32 32)
    by (try assumption; try reflexivity; unfold sizeof_free_block, WORD in *; lia).
  set (st4 := set_HEAD (put_next st3 (b + 40) b) (b + 40)).
  assert (G4c : get_size st4 (b + 40) = 32).
  { unfold st4. revert G3c. mem_simpl. auto. }
  assert (N4c : get_next st4 (b + 40) = b).
  { unfold st4. mem_simpl. apply wrap_small. lia. }
  assert (G4b : get_size st4 b = 32).
  { unfold st4. revert G3b. mem_simpl. auto. }
  assert (N4b : get_next st4 b = NULL).
  { unfold st4. revert N3b. mem_simpl. auto. }
  assert (B4 : brk st4 = b + 80) by exact B2.
  (* Allocate 64 + hdr *)
  assert (T : tumalloc fuel st4 (64 + hdr)
              = Some (b + 88, grown st4 80)).
  { unfold tumalloc. rewrite R. change (HEAD st4) with (b + 40).
    destruct fuel as [| [| [| fuel]]]; try lia.
    cbn [tumalloc_scan].
    destruct (Z.eqb_spec (b + 40) NULL) as [E | _]; [unfold NULL in E; lia |].
    rewrite G4c, N4c.
    change (wrap (80 + sizeof_free_block) <=? 32) with false. cbv iota.
    destruct (Z.eqb_spec b NULL) as [E | _]; [unfold NULL in E; lia |].
    rewrite G4b, N4b. change (NULL =? NULL) with true. cbv iota.
    rewrite tumalloc_grow_granted.
    - rewrite B4.
      replace (b + 80 + sizeof_size_t) with (b + 88) by (unfold sizeof_size_t; lia).
      reflexivity.
    - lia.
    - change (to_signed (wrap (80 + sizeof_size_t))) with 88. rewrite B4.
      change (brk_min st4) with (brk_min st).
      change (brk_max st4) with (brk_max st). lia. }
  rewrite T.
  exists st4, (grown st4 80).
  split.
  { replace (b + 40 + sizeof_size_t) with (b + 48) by (unfold sizeof_size_t; lia).
    reflexivity. }
  split.
  { unfold free_blocks. change (HEAD st4) with (b + 40).
    destruct fuel as [| [| [| fuel]]]; try lia.
    cbn [free_blocks_from].
    destruct (Z.eqb_spec (b + 40) NULL) as [E | _]; [unfold NULL in E; lia |].
    rewrite N4c.
    destruct (Z.eqb_spec b NULL) as [E | _]; [unfold NULL in E; lia |].
    rewrite N4b. reflexivity. }
  split; [exact G4c |]. split; [exact G4b |].
  split; [rewrite R; reflexivity |].
  split; [exact B4 |].
  split; [| reflexivity].
  unfold grown. cbn [brk]. rewrite B4.
  change (to_signed (wrap (80 + sizeof_size_t))) with 88. lia.
Qed.

Lemma two_blocks_request_grows_witness :
  let st := fresh_heap 4096 (2 ^ 20) in
  exists st4 st5,
    two_blocks_then_request 3 st (64 + sizeof_free_block)
    = Some (4104, 4144, st4, 4184, st5)
    /\ free_blocks 3 st4 = Some [4136; 4096]
    /\ brk st4 = 4176 /\ brk st5 = 4264.
Proof.
  intro st.
  destruct (two_blocks_request_grows 3 st sizeof_free_block)
    as [st4 [st5 [E [F [_ [_ [_ [B4 [B5 _]]]]]]]]].
  - apply le_n.
  - reflexivity.
  - reflexivity.
  - discriminate.
  - discriminate.
  - reflexivity.
  - now right.
  - exists st4, st5. auto.
Defined.

(** C2 as worded fails on a fresh heap, for either reading of the header
    size: A is 4104 and B is 4144, right after A's 40-byte block; after
    both releases the last request is answered with 4184 and the break
    moves from 4176 to 4264. *)
Lemma two_blocks_not_merged_for_request :
  let st := fresh_heap 4096 (2 ^ 20) in
  option_map scenario_view (two_blocks_then_request 3 st (64 + sizeof_free_block))
  = Some (4104, 4144, 4176, 4184, 4264)
  /\ option_map scenario_view (two_blocks_then_request 3 st (64 + sizeof_size_t))
     = Some (4104, 4144, 4176, 4184, 4264)
  /\ ~ merged_span_reused 3 st sizeof_free_block
  /\ ~ merged_span_reused 3 st sizeof_size_t.
Proof.
  intro st.
  assert (E16 : option_map scenario_view
                  (two_blocks_then_request 3 st (64 + sizeof_free_block))
                = Some (4104, 4144, 4176, 4184, 4264)) by (vm_compute; reflexivity).
  assert (E8 : option_map scenario_view
                 (two_blocks_then_request 3 st (64 + sizeof_size_t))
               = Some (4104, 4144, 4176, 4184, 4264)) by (vm_compute; reflexivity).
  split; [exact E16 |]. split; [exact E8 |].
  split; intro H.
  - destruct (two_blocks_then_request 3 st (64 + sizeof_free_block))
      as [[[[[a b] st4] q] st5] |] eqn:S; [| discriminate E16].
    destruct (H a b st4 q st5 S) as [Q _].
    cbn in E16. injection E16 as Ea _ _ Eq _. subst a q. discriminate Q.
  - destruct (two_blocks_then_request 3 st (64 + sizeof_size_t))
      as [[[[[a b] st4] q] st5] |] eqn:S; [| discriminate E8].
    destruct (H a b st4 q st5 S) as [Q _].
    cbn in E8. injection E8 as Ea _ _ Eq _. subst a q. discriminate Q.
Qed.

(** ** Where the code departs from its own intent *)

Lemma coalesce_prev_HEAD (st : state) (prev block : Z) :
  HEAD (snd (coalesce_prev st prev block)) = HEAD st.
Proof.
  unfold coalesce_prev.
  destruct (prev =? NULL); [reflexivity |].
  destruct (wrap (prev + get_size st prev + sizeof_free_block) =? block);
    [| reflexivity].
  cbn [snd].
  match goal with |- context [if ?c then _ else _] => destruct c end;
    reflexivity.
Qed.

Lemma coalesce_next_HEAD (st : state) (next block : Z) :
  HEAD (coalesce_next st next block) = HEAD st.
Proof.
  unfold coalesce_next.
  destruct (next =? NULL); [reflexivity |].
  destruct (wrap (block + get_size st block + sizeof_free_block) =? next);
    reflexivity.
Qed.

(** X7.  Whatever [coalesce] merges, the block just released is still the
    head of the free list when [tufree] returns. *)
Lemma tufree_leaves_block_at_head (fuel : nat) (st st' : state) (p : Z) :
  p <> NULL ->
  tufree fuel st p = Some st' ->
  HEAD st' = p - sizeof_size_t.
Proof.
  intros Hp H. unfold tufree in H.
  destruct (Z.eqb_spec p NULL) as [E | _]; [contradiction |].
  set (block := p - sizeof_size_t) in *.
  set (st2 := set_HEAD (put_next st block (HEAD st)) block) in *.
  destruct (coalesce fuel st2 block) as [[r st3] |] eqn:C; [| discriminate].
  injection H as <-. unfold coalesce in C.
  destruct (block =? NULL).
  - injection C as _ <-. reflexivity.
  - destruct (find_prev fuel st2 block) as [prev |]; [| discriminate].
    destruct (find_next fuel st2 block) as [next |]; [| discriminate].
    pose proof (coalesce_prev_HEAD st2 prev block) as HP.
    destruct (coalesce_prev st2 prev block) as [block1 st1].
    injection C as _ <-. rewrite coalesce_next_HEAD. exact HP.
Qed.

(** C3.  A well-behaved caller allocates 32, 0 and 32 bytes on a fresh
    heap (blocks at 4096, 4136 and 4144) and releases the first and the
    third.  [coalesce] finds the block at 4096 to end, by its arithmetic,
    where the block at 4144 starts, and adds 48 to its size; but the block
    at 4144 was pushed as the list head, [prev->next] is not it, and it is
    not unlinked.  The free list then holds 4144 (capacity 32) and 4096
    (capacity 80): the first range lies inside the second, whichever header
    size delimits a range.  Two further allocations of 16 bytes hand out
    4152 and 4104, the latter with 80 bytes that cover the former. *)
Theorem absorbed_block_stays_listed :
  let c := run 3 (fresh_client 4096 (2 ^ 20)) outer_blocks_released in
  let st := heap_after 3 (2 ^ 20) outer_blocks_released in
  option_map owned c = Some [4144]
  /\ free_blocks 3 st = Some [4144; 4096]
  /\ get_size st 4144 = 32
  /\ get_size st 4096 = 80
  /\ span_inside (block_span sizeof_free_block st 4144)
                 (block_span sizeof_free_block st 4096) = true
  /\ span_inside (block_span sizeof_size_t st 4144)
                 (block_span sizeof_size_t st 4096) = true
  /\ ~ free_list_disjoint sizeof_free_block 3 st
  /\ ~ free_list_disjoint sizeof_size_t 3 st
  /\ option_map owned
       (run 3 (fresh_client 4096 (2 ^ 20))
            (outer_blocks_released ++ [Allocate 16; Allocate 16]))
     = Some [4104; 4152; 4144]
  /\ let st' := heap_after 3 (2 ^ 20)
                  (outer_blocks_released ++ [Allocate 16; Allocate 16]) in
     load64 (mem st') (4104 - sizeof_size_t) = 80
     /\ load64 (mem st') (4152 - sizeof_size_t) = 32
     /\ span_overlap (4104, 4104 + 80) (4152, 4152 + 32) = true.
Proof.
  intros c st.
  assert (F : free_blocks 3 st = Some [4144; 4096]) by (vm_compute; reflexivity).
  split; [vm_compute; reflexivity |].
  split; [exact F |].
  split; [vm_compute; reflexivity |].
  split; [vm_compute; reflexivity |].
  split; [vm_compute; reflexivity |].
  split; [vm_compute; reflexivity |].
  split.
  { intro H. specialize (H _ F). vm_compute in H. discriminate H. }
  split.
  { intro H. specialize (H _ F). vm_compute in H. discriminate H. }
  split; [vm_compute; reflexivity |].
  intro st'.
  split; [vm_compute; reflexivity |].
  split; [vm_compute; reflexivity |].
  reflexivity.
Qed.

Lemma split_refuses (st : state) (block size : Z) :
  get_size st block < wrap (wrap size + sizeof_free_block) ->
  split st block size = (NULL, st).
Proof.
  intro H. unfold split.
  destruct (Z.ltb_spec (get_size st block) (wrap (wrap size + sizeof_free_block)));
    [reflexivity | lia].
Qed.

(** When the block is large enough [split] resizes it to the target and
    writes the remainder's header after it, with the remaining capacity
    less one header and the block's link; the block's own link and [HEAD]
    are not written. *)
Lemma split_carves (st : state) (block size : Z) :
  0 <= size ->
  size + sizeof_free_block <= get_size st block ->
  let new_block := block + size + sizeof_free_block in
  let st' := snd (split st block size) in
  fst (split st block size) = block
  /\ get_size st' block = size
  /\ get_size st' new_block = get_size st block - size - sizeof_free_block
  /\ get_next st' new_block = get_next st block
  /\ get_next st' block = get_next st block
  /\ HEAD st' = HEAD st.
Proof.
  intros Hs Hc new_block st'.
  pose proof (load64_range (mem st) (block + off_size)) as R.
  fold (get_size st block) in R.
  assert (W : wrap size = size)
    by (apply wrap_small; unfold sizeof_free_block in *; lia).
  assert (W1 : wrap (wrap size + sizeof_free_block) = size + sizeof_free_block)
    by (rewrite W; apply wrap_small; unfold sizeof_free_block in *; lia).
  assert (W2 : wrap (wrap (get_size st block - wrap size) - sizeof_free_block)
               = get_size st block - size - sizeof_free_block).
  { rewrite W. rewrite (wrap_small (get_size st block - size))
      by (unfold sizeof_free_block in *; lia).
    apply wrap_small. unfold sizeof_free_block in *. lia. }
  unfold st', split. rewrite W1, W2, W.
  destruct (Z.ltb_spec (get_size st block) (size + sizeof_free_block)) as [L | _];
    [lia |].
  cbn [fst snd]. fold new_block.
  assert (Far : block + 16 <= new_block)
    by (unfold new_block, sizeof_free_block; lia).
  split; [reflexivity |].
  split.
  { mem_simpl. exact W. }
  split.
  { mem_simpl. apply wrap_small. unfold sizeof_free_block in *.
    unfold get_size, off_size in *. rewrite Z.add_0_r in *. lia. }
  split.
  { mem_simpl. apply wrap_small. apply load64_range. }
  split.
  { mem_simpl. reflexivity. }
  reflexivity.
Qed.

Lemma free_blocks_from_frame (fuel : nat) (st st' : state) :
  forall curr l,
    free_blocks_from fuel st curr = Some l ->
    (forall c, In c l -> get_next st' c = get_next st c) ->
    free_blocks_from fuel st' curr = Some l.
Proof.
  induction fuel as [| fuel IH]; intros curr l H Hn; cbn in H |- *.
  - discriminate.
  - destruct (curr =? NULL); [exact H |].
    destruct (free_blocks_from fuel st (get_next st curr)) as [l' |] eqn:E;
      [| discriminate].
    injection H as <-.
    rewrite (Hn curr (or_introl eq_refl)).
    rewrite (IH _ _ E); [reflexivity |].
    intros c Hc. apply Hn. now right.
Qed.

(** X10.  On a free list whose other blocks lie outside the block being
    split, a successful [split] leaves the list as it was: the remainder is
    not on it. *)
Lemma split_leaves_free_list (fuel : nat) (st : state) (block size : Z) (l : list Z) :
  free_blocks fuel st = Some l ->
  0 <= size ->
  size + sizeof_free_block <= get_size st block ->
  (forall c, In c l -> c = block
                       \/ c + sizeof_free_block <= block
                       \/ block + sizeof_free_block + get_size st block <= c) ->
  free_blocks fuel (snd (split st block size)) = Some l
  /\ ~ In (block + size + sizeof_free_block) l.
Proof.
  intros Hl Hs Hc Hsep.
  destruct (split_carves st block size Hs Hc) as [_ [_ [_ [_ [Nb Hh]]]]].
  split.
  - unfold free_blocks. rewrite Hh.
    apply (free_blocks_from_frame fuel st); [exact Hl |].
    intros c Hin. destruct (Hsep c Hin) as [-> | Hout]; [exact Nb |].
    pose proof (load64_range (mem st) (block + off_size)) as R.
    fold (get_size st block) in R.
    unfold split.
    rewrite (wrap_small size) by (unfold sizeof_free_block in *; lia).
    rewrite (wrap_small (size + sizeof_free_block))
      by (unfold sizeof_free_block in *; lia).
    destruct (Z.ltb_spec (get_size st block) (size + sizeof_free_block)) as [L | _];
      [lia |].
    cbn [snd]. unfold sizeof_free_block in *. mem_simpl. reflexivity.
  - intro Hin. destruct (Hsep _ Hin) as [E | Hout];
      unfold sizeof_free_block in *; lia.
Qed.

(** C5.  [split] applied to the only block of the free list (at 4096,
    capacity 64) with target 16: the block's size becomes 16 and a
    remainder of capacity 32 is written at 4128 with the block's old link,
    but nothing is made to point at it; the free list, walked from [HEAD],
    holds the block at 4096 alone.  With a target too large for the block
    [split] returns null and the free list and the block's size are as
    before. *)
Theorem split_remainder_not_listed :
  let st := heap_after 2 (2 ^ 20) one_free_block in
  free_blocks 3 st = Some [4096]
  /\ get_size st 4096 = 64
  /\ fst (split st 4096 16) = 4096
  /\ (let st' := snd (split st 4096 16) in
      get_size st' 4096 = 16
      /\ get_size st' 4128 = 64 - 16 - sizeof_free_block
      /\ get_next st' 4128 = get_next st 4096
      /\ HEAD st' = 4096
      /\ get_next st' 4096 = NULL
      /\ free_blocks 3 st' = Some [4096]
      /\ ~ In 4128 [4096])
  /\ fst (split st 4096 49) = NULL
  /\ (let st' := snd (split st 4096 49) in
      get_size st' 4096 = 64 /\ free_blocks 3 st' = Some [4096]).
Proof.
  intro st.
  split; [vm_compute; reflexivity |].
  split; [vm_compute; reflexivity |].
  split; [vm_compute; reflexivity |].
  split.
  { intro st'.
    split; [vm_compute; reflexivity |].
    split; [vm_compute; reflexivity |].
    split; [vm_compute; reflexivity |].
    split; [vm_compute; reflexivity |].
    split; [vm_compute; reflexivity |].
    split; [vm_compute; reflexivity |].
    intros [E | []]. discriminate E. }
  split; [vm_compute; reflexivity |].
  intro st'. split; vm_compute; reflexivity.
Qed.

(** * Further properties of the code *)

(** ** Walking the free list *)

Lemma free_blocks_from_more_fuel (st : state) :
  forall fuel fuel' curr l,
    free_blocks_from fuel st curr = Some l ->
    (fuel <= fuel')%nat ->
    free_blocks_from fuel' st curr = Some l.
Proof.
  induction fuel as [| fuel IH]; intros fuel' curr l H Hle; cbn in H.
  - discriminate.
  - destruct fuel' as [| fuel']; [lia |]. cbn.
    destruct (curr =? NULL); [exact H |].
    destruct (free_blocks_from fuel st (get_next st curr)) as [l' |] eqn:E;
      [| discriminate].
    rewrite (IH fuel' _ _ E) by lia. exact H.
Qed.

(** The list read from [curr] starts with [curr], unless [curr] is null. *)
Lemma free_blocks_from_cons (fuel : nat) (st : state) (curr c : Z) (l : list Z) :
  free_blocks_from fuel st curr = Some (c :: l) ->
  curr = c /\ c <> NULL
  /\ free_blocks_from fuel st (get_next st c) = Some l.
Proof.
  intro H. destruct fuel as [| fuel]; cbn in H; [discriminate |].
  destruct (Z.eqb_spec curr NULL) as [E | NE]; [discriminate |].
  destruct (free_blocks_from fuel st (get_next st curr)) as [l' |] eqn:E;
    [| discriminate].
  injection H as <- <-. repeat split; auto.
  apply (free_blocks_from_more_fuel st fuel); [exact E | lia].
Qed.

Lemma free_blocks_from_nil (fuel : nat) (st : state) (curr : Z) :
  free_blocks_from fuel st curr = Some [] -> curr = NULL.
Proof.
  intro H. destruct fuel as [| fuel]; cbn in H; [discriminate |].
  destruct (Z.eqb_spec curr NULL) as [E | NE]; [exact E |].
  destruct (free_blocks_from fuel st (get_next st curr)); discriminate.
Qed.

Lemma free_blocks_from_not_null (fuel : nat) (st : state) :
  forall curr l, free_blocks_from fuel st curr = Some l -> ~ In NULL l.
Proof.
  induction fuel as [| fuel IH]; intros curr l H; cbn in H.
  - discriminate.
  - destruct (Z.eqb_spec curr NULL) as [E | NE].
    + injection H as <-. intros [].
    + destruct (free_blocks_from fuel st (get_next st curr)) as [l' |] eqn:E;
        [| discriminate].
      injection H as <-. intros [E' | Hin]; [congruence |].
      apply (IH _ _ E Hin).
Qed.

(** What follows the block [n] in the list is the list read from its link. *)
Lemma free_blocks_from_suffix (st : state) (n : Z) (l2 : list Z) :
  forall l1 fuel curr,
    free_blocks_from fuel st curr = Some (l1 ++ n :: l2) ->
    free_blocks_from fuel st (get_next st n) = Some l2.
Proof.
  induction l1 as [| c l1 IH]; intros fuel curr H.
  - apply free_blocks_from_cons in H. tauto.
  - apply free_blocks_from_cons in H. destruct H as [_ [_ H]].
    apply (IH _ _ H).
Qed.

Lemma headers_apart_app_r (l1 l2 : list Z) :
  headers_apart (l1 ++ l2) -> headers_apart l2.
Proof.
  induction l1 as [| c l1 IH]; cbn; [auto |].
  intros [_ H]. auto.
Qed.

Lemma headers_apart_not_in (c : Z) (l : list Z) :
  headers_apart (c :: l) -> ~ In c l.
Proof.
  cbn. intros [H _] Hin. rewrite Forall_forall in H.
  specialize (H c Hin). unfold sizeof_free_block in H. lia.
Qed.

Lemma headers_apart_NoDup (l : list Z) : headers_apart l -> NoDup l.
Proof.
  induction l as [| c l IH]; intro H.
  - constructor.
  - constructor; [now apply headers_apart_not_in |].
    apply IH. apply H.
Qed.

(** Two distinct entries of a list with disjoint headers are 16 apart. *)
Lemma headers_apart_in (l : list Z) (c d : Z) :
  headers_apart l -> In c l -> In d l -> c <> d ->
  c + sizeof_free_block <= d \/ d + sizeof_free_block <= c.
Proof.
  induction l as [| x l IH]; cbn; [tauto |].
  intros [HF HA] [-> | Hc] [-> | Hd] Hne.
  - congruence.
  - rewrite Forall_forall in HF. apply (HF _ Hd).
  - rewrite Forall_forall in HF. specialize (HF _ Hc). lia.
  - auto.
Qed.

(** Writing the link of [c] changes neither the size of a block nor the
    link of a block whose header is disjoint from that of [c]. *)
Lemma get_size_put_next (st : state) (c v d : Z) :
  d = c \/ c + sizeof_free_block <= d \/ d + sizeof_free_block <= c ->
  get_size (put_next st c v) d = get_size st d.
Proof. intro H. unfold sizeof_free_block in H. mem_simpl. reflexivity. Qed.

Lemma get_next_put_next (st : state) (c v d : Z) :
  c + sizeof_free_block <= d \/ d + sizeof_free_block <= c ->
  get_next (put_next st c v) d = get_next st d.
Proof. intro H. unfold sizeof_free_block in H. mem_simpl. reflexivity. Qed.

Lemma get_next_put_size (st : state) (c v d : Z) :
  d = c \/ c + sizeof_free_block <= d \/ d + sizeof_free_block <= c ->
  get_next (put_size st c v) d = get_next st d.
Proof. intro H. unfold sizeof_free_block in H. mem_simpl. reflexivity. Qed.

Lemma get_size_put_size (st : state) (c v d : Z) :
  c + sizeof_free_block <= d \/ d + sizeof_free_block <= c ->
  get_size (put_size st c v) d = get_size st d.
Proof. intro H. unfold sizeof_free_block in H. mem_simpl. reflexivity. Qed.

Lemma get_size_put_size_same (st : state) (c v : Z) :
  get_size (put_size st c v) c = wrap v.
Proof. mem_simpl. reflexivity. Qed.

Lemma get_next_range (st : state) (c : Z) : 0 <= get_next st c < WORD.
Proof. apply load64_range. Qed.

Lemma get_size_range (st : state) (c : Z) : 0 <= get_size st c < WORD.
Proof. apply load64_range. Qed.

(** ** The two neighbour searches *)

Lemma find_prev_from_filter (st : state) (block : Z) :
  forall fuel curr l,
    free_blocks_from fuel st curr = Some l ->
    find_prev_from fuel st curr block
    = Some (hd NULL (filter (ends_at st block) l)).
Proof.
  induction fuel as [| fuel IH]; intros curr l H; cbn in H |- *.
  - discriminate.
  - destruct (curr =? NULL).
    + injection H as <-. reflexivity.
    + destruct (free_blocks_from fuel st (get_next st curr)) as [l' |] eqn:E;
        [| discriminate].
      injection H as <-. cbn [filter]. unfold ends_at at 1.
      destruct (wrap (curr + get_size st curr + sizeof_free_block) =? block).
      * reflexivity.
      * apply (IH _ _ E).
Qed.

Lemma find_next_from_filter (st : state) (block_end : Z) :
  forall fuel curr l,
    free_blocks_from fuel st curr = Some l ->
    find_next_from fuel st curr block_end
    = Some (hd NULL (filter (fun c => c =? block_end) l)).
Proof.
  induction fuel as [| fuel IH]; intros curr l H; cbn in H |- *.
  - discriminate.
  - destruct (curr =? NULL).
    + injection H as <-. reflexivity.
    + destruct (free_blocks_from fuel st (get_next st curr)) as [l' |] eqn:E;
        [| discriminate].
      injection H as <-. cbn [filter].
      destruct (curr =? block_end).
      * reflexivity.
      * apply (IH _ _ E).
Qed.

Lemma hd_filter_cases (f : Z -> bool) (l : list Z) :
  (hd NULL (filter f l) = NULL /\ filter f l = [])
  \/ (In (hd NULL (filter f l)) l /\ f (hd NULL (filter f l)) = true).
Proof.
  destruct (filter f l) as [| x r] eqn:E.
  - left. auto.
  - right. cbn.
    assert (Hin : In x (filter f l)) by (rewrite E; now left).
    apply filter_In in Hin. exact Hin.
Qed.

(** X1.  On a free list that ends (the walk from [HEAD] yields [l]),
    [find_prev] returns, and what it returns is the first block of the
    list, in list order, whose address plus capacity plus 16, reduced
    modulo [2^64], is the address asked about, or null when the list has
    no such block.  The block asked about need not be on the list. *)
Theorem find_prev_first_match (fuel : nat) (st : state) (block : Z) (l : list Z) :
  free_blocks fuel st = Some l ->
  exists r,
    find_prev fuel st block = Some r
    /\ r = hd NULL (filter (ends_at st block) l)
    /\ (r <> NULL ->
        In r l /\ wrap (r + get_size st r + sizeof_free_block) = block)
    /\ (r = NULL ->
        forall c, In c l ->
                  wrap (c + get_size st c + sizeof_free_block) <> block).
Proof.
  intro H. pose proof (free_blocks_from_not_null _ _ _ _ H) as HN.
  eexists. split; [apply (find_prev_from_filter st block fuel _ l H) |].
  split; [reflexivity |].
  destruct (hd_filter_cases (ends_at st block) l) as [[E0 EF] | [Hin Hf]].
  - split; [intro C; contradiction |].
    intros _ c Hc E.
    assert (X : In c (filter (ends_at st block) l)).
    { apply filter_In. split; [exact Hc |]. unfold ends_at. now apply Z.eqb_eq. }
    rewrite EF in X. exact X.
  - split.
    + intros _. split; [exact Hin |]. unfold ends_at in Hf. now apply Z.eqb_eq.
    + intro E0. rewrite E0 in Hin. contradiction.
Qed.

Lemma find_prev_first_match_witness :
  let st := heap_after 2 (2 ^ 20)
              [Allocate 16; Allocate (WORD - 16); Release 4128] in
  free_blocks 2 st = Some [4120]
  /\ get_size st 4120 = WORD - 16
  /\ exists r,
      find_prev 2 st 4120 = Some r /\ r = 4120
      /\ wrap (4120 + get_size st 4120 + sizeof_free_block) = 4120.
Proof.
  intro st.
  assert (F : free_blocks 2 st = Some [4120]) by (vm_compute; reflexivity).
  split; [exact F |]. split; [vm_compute; reflexivity |].
  destruct (find_prev_first_match 2 st 4120 [4120] F) as [r [E [Er [Hr _]]]].
  assert (R : r = 4120) by (rewrite Er; vm_compute; reflexivity).
  exists r. split; [exact E |]. split; [exact R |].
  rewrite <- R at 1 2. apply Hr. rewrite R. discriminate.
Defined.

(** X2.  On a free list that ends, [find_next] returns, and what it
    returns is the address where the block asked about ends (its address
    plus its recorded capacity plus 16, reduced modulo [2^64]) when that
    address is on the list, and null otherwise. *)
Theorem find_next_is_block_end (fuel : nat) (st : state) (block : Z) (l : list Z) :
  free_blocks fuel st = Some l ->
  let block_end := wrap (block + get_size st block + sizeof_free_block) in
  (In block_end l -> find_next fuel st block = Some block_end)
  /\ (~ In block_end l -> find_next fuel st block = Some NULL).
Proof.
  intros H block_end. unfold find_next. fold block_end.
  rewrite (find_next_from_filter st block_end fuel _ l H).
  destruct (hd_filter_cases (fun c => c =? block_end) l) as [[E0 EF] | [Hin Hf]].
  - split.
    + intro Hb. exfalso.
      assert (X : In block_end (filter (fun c => c =? block_end) l)).
      { apply filter_In. split; [exact Hb | apply Z.eqb_refl]. }
      rewrite EF in X. exact X.
    + intros _. rewrite E0. reflexivity.
  - apply Z.eqb_eq in Hf. rewrite Hf in *. split.
    + reflexivity.
    + intro C. contradiction.
Qed.

Lemma find_next_is_block_end_witness :
  let st := heap_after 3 (2 ^ 20)
              [Allocate 32; Allocate 0; Allocate 32; Release 4152] in
  let st' := heap_after 2 (2 ^ 20)
               [Allocate 16; Allocate (WORD - 16); Release 4128] in
  find_next 3 st 4096 = Some 4144
  /\ find_next 3 st 4144 = Some NULL
  /\ get_size st' 4120 = WORD - 16
  /\ find_next 2 st' 4120 = Some 4120.
Proof.
  intros st st'.
  assert (F : free_blocks 3 st = Some [4144]) by (vm_compute; reflexivity).
  assert (F' : free_blocks 2 st' = Some [4120]) by (vm_compute; reflexivity).
  assert (E1 : wrap (4096 + get_size st 4096 + sizeof_free_block) = 4144)
    by (vm_compute; reflexivity).
  assert (E2 : wrap (4144 + get_size st 4144 + sizeof_free_block) = 4192)
    by (vm_compute; reflexivity).
  assert (E3 : wrap (4120 + get_size st' 4120 + sizeof_free_block) = 4120)
    by (vm_compute; reflexivity).
  split; [| split; [| split; [vm_compute; reflexivity |]]].
  - pose proof (proj1 (find_next_is_block_end 3 st 4096 [4144] F)) as P.
    cbv zeta in P. rewrite E1 in P. apply P. now left.
  - pose proof (proj2 (find_next_is_block_end 3 st 4144 [4144] F)) as P.
    cbv zeta in P. rewrite E2 in P. apply P. intros [C | []]. discriminate C.
  - pose proof (proj1 (find_next_is_block_end 2 st' 4120 [4120] F')) as P.
    cbv zeta in P. rewrite E3 in P. apply P. now left.
Defined.

(** ** Unlinking a block *)

Lemma free_blocks_from_step (fuel : nat) (st : state) (curr c : Z) (l : list Z) :
  free_blocks_from fuel st curr = Some (c :: l) ->
  exists f,
    fuel = S f /\ curr = c /\ c <> NULL
    /\ free_blocks_from f st (get_next st c) = Some l.
Proof.
  intro H. destruct fuel as [| fuel]; cbn in H; [discriminate |].
  destruct (Z.eqb_spec curr NULL) as [E | NE]; [discriminate |].
  destruct (free_blocks_from fuel st (get_next st curr)) as [l' |] eqn:E;
    [| discriminate].
  injection H as <- <-. exists fuel. auto.
Qed.

Lemma free_blocks_from_set_HEAD (fuel : nat) (st : state) (h curr : Z) :
  free_blocks_from fuel (set_HEAD st h) curr = free_blocks_from fuel st curr.
Proof.
  revert curr. induction fuel as [| fuel IH]; intro curr; cbn; [reflexivity |].
  destruct (curr =? NULL); [reflexivity |].
  change (get_next (set_HEAD st h) curr) with (get_next st curr).
  now rewrite IH.
Qed.

Lemma free_blocks_from_S (fuel : nat) (st : state) (curr : Z) :
  free_blocks_from (S fuel) st curr
  = if curr =? NULL then Some []
    else match free_blocks_from fuel st (get_next st curr) with
         | Some l => Some (curr :: l)
         | None => None
         end.
Proof. reflexivity. Qed.

(** Once the link of [c] bypasses its successor [b], the walk yields the
    same list without [b]. *)
Lemma bypass_walk (st : state) (c b : Z) (l2 : list Z) :
  forall l1 fuel curr,
    free_blocks_from fuel st curr = Some (l1 ++ c :: b :: l2) ->
    headers_apart (l1 ++ c :: b :: l2) ->
    free_blocks_from fuel (bypass st c b) curr = Some (l1 ++ c :: l2).
Proof.
  induction l1 as [| x l1 IH]; intros fuel curr H HA; cbn [app] in *.
  - destruct (free_blocks_from_step _ _ _ _ _ H) as [f [-> [-> [Hc Hrest]]]].
    destruct (free_blocks_from_step _ _ _ _ _ Hrest) as [f' [-> [Eb [Hb Hl2]]]].
    rewrite free_blocks_from_S.
    destruct (Z.eqb_spec c NULL) as [E | _]; [contradiction |].
    assert (N : get_next (bypass st c b) c = get_next st b).
    { unfold bypass. mem_simpl. apply wrap_small. apply load64_range. }
    assert (W : free_blocks_from (S f') (bypass st c b) (get_next st b) = Some l2).
    { apply (free_blocks_from_more_fuel _ f'); [| lia].
      apply (free_blocks_from_frame f' st); [exact Hl2 |].
      intros d Hd. unfold bypass. apply get_next_put_next.
      destruct HA as [HF _]. rewrite Forall_forall in HF.
      apply HF. now right. }
    rewrite N, W. reflexivity.
  - destruct (free_blocks_from_step _ _ _ _ _ H) as [f [-> [-> [Hx Hrest]]]].
    rewrite free_blocks_from_S.
    destruct (Z.eqb_spec x NULL) as [E | _]; [contradiction |].
    assert (N : get_next (bypass st c b) x = get_next st x).
    { unfold bypass. apply get_next_put_next.
      destruct HA as [HF _]. rewrite Forall_forall in HF.
      specialize (HF c ltac:(apply in_or_app; right; now left)). lia. }
    rewrite N. rewrite (IH _ _ Hrest (proj2 HA)). reflexivity.
Qed.

Lemma remove_middle (block : Z) (l1 l2 : list Z) :
  ~ In block l1 -> ~ In block l2 ->
  remove Z.eq_dec block (l1 ++ block :: l2) = l1 ++ l2.
Proof.
  intros H1 H2. rewrite remove_app. cbn [remove].
  destruct (Z.eq_dec block block) as [_ | NE]; [| congruence].
  now rewrite !notin_remove.
Qed.

Lemma headers_apart_split (l1 l2 : list Z) (block : Z) :
  headers_apart (l1 ++ block :: l2) -> ~ In block l1 /\ ~ In block l2.
Proof.
  intro HA. apply headers_apart_NoDup in HA.
  apply NoDup_remove_2 in HA. split; intro H; apply HA; apply in_or_app; auto.
Qed.

Lemma remove_free_block_from_finds (st : state) (c block : Z) (l2 : list Z) :
  forall l1 fuel curr,
    free_blocks_from fuel st curr = Some (l1 ++ c :: block :: l2) ->
    ~ In block (l1 ++ [c]) ->
    remove_free_block_from fuel st curr block = Some (bypass st c block).
Proof.
  induction l1 as [| x l1 IH]; intros fuel curr H Hn; cbn [app] in *.
  - destruct (free_blocks_from_step _ _ _ _ _ H) as [f [-> [-> [Hc Hrest]]]].
    destruct (free_blocks_from_step _ _ _ _ _ Hrest) as [f' [_ [Eb _]]].
    cbn [remove_free_block_from].
    destruct (Z.eqb_spec c NULL) as [E | _]; [contradiction |].
    rewrite Eb, Z.eqb_refl. reflexivity.
  - destruct (free_blocks_from_step _ _ _ _ _ H) as [f [-> [-> [Hx Hrest]]]].
    cbn [remove_free_block_from].
    destruct (Z.eqb_spec x NULL) as [E | _]; [contradiction |].
    assert (Hnext : In (get_next st x) (l1 ++ [c])).
    { destruct l1 as [| y l1]; cbn [app] in Hrest;
        destruct (free_blocks_from_step _ _ _ _ _ Hrest) as [_ [_ [-> _]]];
        now left. }
    destruct (Z.eqb_spec (get_next st x) block) as [E | _].
    + exfalso. apply Hn. right. rewrite <- E. exact Hnext.
    + apply (IH _ _ Hrest). intro Hin. apply Hn. now right.
Qed.

(** X3.  [remove_free_block] applied to a block of a free list that ends
    and whose headers are pairwise disjoint: it returns, and afterwards the
    walk from [HEAD] yields the same list, in the same order, without that
    block; no size recorded in a listed block has changed and the break is
    where it was. *)
Theorem remove_free_block_unlinks (fuel : nat) (st : state) (block : Z) (l : list Z) :
  free_blocks fuel st = Some l ->
  headers_apart l ->
  In block l ->
  exists st',
    remove_free_block fuel st block = Some st'
    /\ free_blocks fuel st' = Some (remove Z.eq_dec block l)
    /\ (forall c, In c l -> get_size st' c = get_size st c)
    /\ brk st' = brk st.
Proof.
  intros Hl HA Hin.
  destruct (in_split _ _ Hin) as [l1 [l2 ->]].
  destruct (headers_apart_split _ _ _ HA) as [N1 N2].
  rewrite (remove_middle _ _ _ N1 N2).
  unfold remove_free_block, free_blocks in *.
  destruct l1 as [| x l1'] using rev_ind.
  - cbn [app] in *.
    destruct (free_blocks_from_step _ _ _ _ _ Hl) as [f [-> [Eh [Hb Hrest]]]].
    rewrite Eh, Z.eqb_refl. eexists. split; [reflexivity |].
    split; [| split; [reflexivity | reflexivity]].
    cbn [HEAD set_HEAD]. rewrite free_blocks_from_set_HEAD.
    apply (free_blocks_from_more_fuel st f); [exact Hrest | lia].
  - clear IHl1'. rewrite <- app_assoc in *. cbn [app] in *.
    assert (Hh : HEAD st <> block).
    { intro E. apply N1.
      destruct l1' as [| y l1']; cbn [app] in Hl;
        destruct (free_blocks_from_step _ _ _ _ _ Hl) as [_ [_ [E' _]]];
        rewrite <- E, E'; now left. }
    destruct (Z.eqb_spec (HEAD st) block) as [E | _]; [contradiction |].
    rewrite (remove_free_block_from_finds st x block l2 l1' fuel (HEAD st) Hl N1).
    eexists. split; [reflexivity |].
    split; [apply (bypass_walk st x block l2 l1' fuel (HEAD st) Hl HA) |].
    split; [| reflexivity].
    intros c Hc. rewrite <- app_assoc in Hc. cbn [app] in Hc.
    unfold bypass. apply get_size_put_next.
    destruct (Z.eq_dec c x) as [-> | NE]; [now left |]. right.
    apply (headers_apart_in _ x c HA); [| exact Hc | congruence].
    apply in_or_app. right. now left.
Qed.

Lemma remove_free_block_unlinks_witness :
  let st := heap_after 3 (2 ^ 20) two_free_blocks in
  free_blocks 3 st = Some [4136; 4096]
  /\ exists st',
      remove_free_block 3 st 4096 = Some st'
      /\ free_blocks 3 st' = Some [4136].
Proof.
  intro st.
  assert (F : free_blocks 3 st = Some [4136; 4096]) by (vm_compute; reflexivity).
  split; [exact F |].
  destruct (remove_free_block_unlinks 3 st 4096 [4136; 4096] F) as [st' [E [F' _]]].
  - cbn. unfold sizeof_free_block.
    split; [constructor; [lia | constructor] | split; [constructor | exact I]].
  - right. now left.
  - exists st'. split; [exact E |].
    change (remove Z.eq_dec 4096 [4136; 4096]) with [4136] in F'. exact F'.
Defined.

Lemma remove_free_block_from_absent (st : state) (block : Z) :
  forall fuel curr l,
    free_blocks_from fuel st curr = Some l ->
    ~ In block l -> block <> NULL ->
    remove_free_block_from fuel st curr block = Some st.
Proof.
  induction fuel as [| fuel IH]; intros curr l H Hn Hb; cbn in H |- *.
  - discriminate.
  - destruct (Z.eqb_spec curr NULL) as [E | NE]; [reflexivity |].
    destruct (free_blocks_from fuel st (get_next st curr)) as [l' |] eqn:E;
      [| discriminate].
    injection H as <-.
    destruct (Z.eqb_spec (get_next st curr) block) as [E' | _].
    + exfalso. rewrite E' in E. destruct l' as [| y l'].
      * apply free_blocks_from_nil in E. contradiction.
      * apply free_blocks_from_cons in E. destruct E as [-> _].
        apply Hn. right. now left.
    + apply (IH _ _ E); [| exact Hb]. intro Hin. apply Hn. now right.
Qed.

(** X4.  [remove_free_block] applied to a non-null address that is not on
    the free list returns with the state as it was. *)
Theorem remove_free_block_absent (fuel : nat) (st : state) (block : Z) (l : list Z) :
  free_blocks fuel st = Some l ->
  ~ In block l ->
  block <> NULL ->
  remove_free_block fuel st block = Some st.
Proof.
  intros Hl Hn Hb. unfold remove_free_block, free_blocks in *.
  destruct (Z.eqb_spec (HEAD st) block) as [E | _].
  - exfalso. rewrite E in Hl. destruct l as [| y l].
    + apply free_blocks_from_nil in Hl. contradiction.
    + apply free_blocks_from_cons in Hl. destruct Hl as [-> _].
      apply Hn. now left.
  - apply (remove_free_block_from_absent st block fuel _ l Hl Hn Hb).
Qed.

Lemma remove_free_block_absent_witness :
  let st := heap_after 3 (2 ^ 20) two_free_blocks in
  remove_free_block 3 st 4176 = Some st.
Proof.
  intro st.
  apply (remove_free_block_absent 3 st 4176 [4136; 4096]).
  - vm_compute. reflexivity.
  - intros [C | [C | []]]; discriminate C.
  - discriminate.
Defined.

(** ** First fit on a list of several blocks *)

Lemma last_cons_default (x d : Z) (l : list Z) : last (x :: l) d = last l x.
Proof.
  revert x d. induction l as [| y l IH]; intros x d; [reflexivity |].
  change (last (x :: y :: l) d) with (last (y :: l) d).
  rewrite IH. symmetry. apply IH.
Qed.

Lemma tumalloc_scan_first_fit (st : state) (size b : Z) (l2 : list Z) :
  forall l1 fuel curr prev,
    free_blocks_from fuel st curr = Some (l1 ++ b :: l2) ->
    Forall (fun c => get_size st c < wrap (size + sizeof_free_block)) l1 ->
    wrap (size + sizeof_free_block) <= get_size st b ->
    tumalloc_scan fuel st size curr prev
    = Some (Some (b + sizeof_size_t,
                  if last l1 prev =? NULL
                  then set_HEAD st (get_next st b)
                  else put_next st (last l1 prev) (get_next st b))).
Proof.
  induction l1 as [| x l1 IH]; intros fuel curr prev H Hsmall Hfit; cbn [app] in H.
  - destruct (free_blocks_from_step _ _ _ _ _ H) as [f [-> [-> [Hb _]]]].
    cbn [tumalloc_scan last].
    destruct (Z.eqb_spec b NULL) as [E | _]; [contradiction |].
    destruct (Z.leb_spec (wrap (size + sizeof_free_block)) (get_size st b));
      [reflexivity | lia].
  - destruct (free_blocks_from_step _ _ _ _ _ H) as [f [-> [-> [Hx Hrest]]]].
    inversion Hsmall as [| ? ? Hx_small Hrest_small]; subst.
    cbn [tumalloc_scan].
    destruct (Z.eqb_spec x NULL) as [E | _]; [contradiction |].
    destruct (Z.leb_spec (wrap (size + sizeof_free_block)) (get_size st x));
      [lia |].
    rewrite (IH _ _ x Hrest Hrest_small Hfit).
    now rewrite last_cons_default.
Qed.

(** X5.  First fit on a free list that ends and whose headers are
    pairwise disjoint.  When the blocks before [b] in list order are all
    below the rounded request plus 16 (in 64-bit arithmetic) and [b] is
    not, the call returns [b + 8]; afterwards the walk from [HEAD] yields
    the same list without [b], the break has not moved and the sizes
    recorded in the listed blocks, that of [b] included, are as before:
    the whole block is handed out, nothing is split off. *)
Theorem first_fit_takes_first_large_enough
        (fuel : nat) (st : state) (s b : Z) (l1 l2 : list Z) :
  free_blocks fuel st = Some (l1 ++ b :: l2) ->
  headers_apart (l1 ++ b :: l2) ->
  Forall (fun c => get_size st c < wrap (align_up s + sizeof_free_block)) l1 ->
  wrap (align_up s + sizeof_free_block) <= get_size st b ->
  exists st',
    tumalloc fuel st s = Some (b + sizeof_size_t, st')
    /\ free_blocks fuel st' = Some (l1 ++ l2)
    /\ brk st' = brk st
    /\ (forall c, In c (l1 ++ b :: l2) -> get_size st' c = get_size st c).
Proof.
  intros Hl HA Hsmall Hfit. unfold tumalloc, free_blocks in *.
  rewrite (tumalloc_scan_first_fit st (align_up s) b l2 l1 fuel (HEAD st) NULL
             Hl Hsmall Hfit).
  eexists. split; [reflexivity |].
  destruct l1 as [| x l1'] using rev_ind.
  - cbn [last app] in *. change (NULL =? NULL) with true. cbv iota.
    split; [| split; [reflexivity | reflexivity]].
    cbn [HEAD set_HEAD]. rewrite free_blocks_from_set_HEAD.
    apply (free_blocks_from_suffix st b l2 [] fuel (HEAD st) Hl).
  - clear IHl1'. rewrite last_last.
    assert (Hx : x <> NULL).
    { intro E. apply (free_blocks_from_not_null _ _ _ _ Hl).
      rewrite E. apply in_or_app. left. apply in_or_app. right. now left. }
    destruct (Z.eqb_spec x NULL) as [E | _]; [contradiction |].
    rewrite <- app_assoc in *. cbn [app] in *.
    split; [apply (bypass_walk st x b l2 l1' fuel (HEAD st) Hl HA) |].
    split; [reflexivity |].
    intros c Hc. rewrite <- app_assoc in Hc. cbn [app] in Hc.
    apply get_size_put_next.
    destruct (Z.eq_dec c x) as [-> | NE]; [now left |]. right.
    apply (headers_apart_in _ x c HA); [| exact Hc | congruence].
    apply in_or_app. right. now left.
Qed.

Lemma first_fit_takes_first_large_enough_witness :
  let st := heap_after 3 (2 ^ 20)
              [Allocate 16; Allocate 64; Release 4104; Release 4128] in
  free_blocks 3 st = Some [4120; 4096]
  /\ get_size st 4120 = 64
  /\ exists st',
      tumalloc 3 st 40 = Some (4128, st')
      /\ free_blocks 3 st' = Some [4096]
      /\ get_size st' 4120 = 64.
Proof.
  intro st.
  assert (F : free_blocks 3 st = Some [4120; 4096]) by (vm_compute; reflexivity).
  assert (G : get_size st 4120 = 64) by (vm_compute; reflexivity).
  split; [exact F |]. split; [exact G |].
  destruct (first_fit_takes_first_large_enough 3 st 40 4120 [] [4096] F)
    as [st' [E [F' [_ S]]]].
  - cbn. unfold sizeof_free_block.
    split; [constructor; [lia | constructor] | split; [constructor | exact I]].
  - constructor.
  - rewrite G. vm_compute. discriminate.
  - exists st'. split; [exact E |]. split; [exact F' |].
    rewrite (S 4120 (or_introl eq_refl)). exact G.
Defined.

(** X6.  Out of memory.  When the free list ends, every block on it is
    below the rounded request plus 16 and the system refuses the break the
    request would need, the call returns null and the state is the one
    before the call. *)
Theorem allocate_out_of_memory (fuel : nat) (st : state) (s : Z) (l : list Z) :
  free_blocks fuel st = Some l ->
  Forall (fun c => get_size st c < wrap (align_up s + sizeof_free_block)) l ->
  0 < brk st ->
  (brk st + to_signed (wrap (align_up s + sizeof_size_t)) < brk_min st
   \/ brk_max st < brk st + to_signed (wrap (align_up s + sizeof_size_t))) ->
  tumalloc fuel st s = Some (NULL, st).
Proof.
  intros Hl Hsmall Hb Hrefuse. unfold tumalloc.
  rewrite (tumalloc_scan_falls_through fuel st (align_up s) (HEAD st) NULL l Hl Hsmall).
  unfold tumalloc_grow, do_alloc, sbrk.
  set (d := to_signed (wrap (align_up s + sizeof_size_t))) in *.
  replace ((brk_min st <=? brk st + d) && (brk st + d <=? brk_max st)) with false.
  - reflexivity.
  - symmetry. apply andb_false_iff.
    destruct Hrefuse; [left; apply Z.leb_gt | right; apply Z.leb_gt]; lia.
Qed.

Lemma allocate_out_of_memory_witness :
  let st := heap_after 3 4176 two_free_blocks in
  free_blocks 3 st = Some [4136; 4096]
  /\ tumalloc 3 st 32 = Some (NULL, st).
Proof.
  intro st.
  assert (F : free_blocks 3 st = Some [4136; 4096]) by (vm_compute; reflexivity).
  split; [exact F |].
  apply (allocate_out_of_memory 3 st 32 [4136; 4096] F).
  - constructor; [vm_compute; reflexivity |].
    constructor; [vm_compute; reflexivity | constructor].
  - reflexivity.
  - right. vm_compute. reflexivity.
Defined.

(** ** Release *)

Lemma tufree_leaves_block_at_head_witness :
  let st := heap_after 3 (2 ^ 20) [Allocate 32; Allocate 0; Allocate 32; Release 4104] in
  exists st',
    tufree 3 st 4152 = Some st'
    /\ HEAD st' = 4144
    /\ get_size st' 4096 = 80.
Proof.
  intro st.
  assert (G : option_map (fun s => get_size s 4096) (tufree 3 st 4152) = Some 80)
    by (vm_compute; reflexivity).
  destruct (tufree 3 st 4152) as [st' |] eqn:E; [| discriminate G].
  exists st'. split; [reflexivity |]. split.
  - apply (tufree_leaves_block_at_head 3 st st' 4152); [discriminate | exact E].
  - cbn [option_map] in G. injection G as G. exact G.
Defined.

Lemma coalesce_prev_brk (st : state) (prev block : Z) :
  let st' := snd (coalesce_prev st prev block) in
  brk st' = brk st /\ brk_min st' = brk_min st /\ brk_max st' = brk_max st.
Proof.
  unfold coalesce_prev.
  destruct (prev =? NULL); [cbn; auto |].
  destruct (wrap (prev + get_size st prev + sizeof_free_block) =? block); [| cbn; auto].
  cbn [snd].
  match goal with |- context [if ?c then _ else _] => destruct c end;
    cbn; auto.
Qed.

Lemma coalesce_next_brk (st : state) (next block : Z) :
  let st' := coalesce_next st next block in
  brk st' = brk st /\ brk_min st' = brk_min st /\ brk_max st' = brk_max st.
Proof.
  unfold coalesce_next.
  destruct (next =? NULL); [cbn; auto |].
  destruct (wrap (block + get_size st block + sizeof_free_block) =? next); cbn; auto.
Qed.

(** X8.  Release never gives memory back to the system: whenever
    [tufree] returns, the break and the bounds the system keeps are those
    before the call. *)
Theorem release_keeps_break (fuel : nat) (st st' : state) (p : Z) :
  tufree fuel st p = Some st' ->
  brk st' = brk st /\ brk_min st' = brk_min st /\ brk_max st' = brk_max st.
Proof.
  intro H. unfold tufree in H.
  destruct (p =? NULL); [injection H as <-; auto |].
  set (block := p - sizeof_size_t) in *.
  set (st2 := set_HEAD (put_next st block (HEAD st)) block) in *.
  destruct (coalesce fuel st2 block) as [[r st3] |] eqn:C; [| discriminate].
  injection H as <-. unfold coalesce in C.
  destruct (block =? NULL).
  - injection C as _ <-. cbn. auto.
  - destruct (find_prev fuel st2 block) as [prev |]; [| discriminate].
    destruct (find_next fuel st2 block) as [next |]; [| discriminate].
    pose proof (coalesce_prev_brk st2 prev block) as HP.
    destruct (coalesce_prev st2 prev block) as [block1 st1].
    injection C as _ <-.
    pose proof (coalesce_next_brk st1 next block1) as HN.
    cbn [snd] in HP. cbv zeta in HP, HN.
    destruct HP as [P1 [P2 P3]]. destruct HN as [N1 [N2 N3]].
    rewrite N1, N2, N3, P1, P2, P3. cbn. auto.
Qed.

Lemma release_keeps_break_witness :
  let st := heap_after 3 (2 ^ 20) [Allocate 32; Allocate 0; Allocate 32; Release 4104] in
  exists st', tufree 3 st 4152 = Some st' /\ brk st' = 4184.
Proof.
  intro st.
  assert (G : option_map HEAD (tufree 3 st 4152) = Some 4144)
    by (vm_compute; reflexivity).
  destruct (tufree 3 st 4152) as [st' |] eqn:E; [| discriminate G].
  exists st'. split; [reflexivity |].
  rewrite (proj1 (release_keeps_break 3 st st' 4152 E)). reflexivity.
Defined.

Lemma block_end_self_only (b s : Z) :
  0 <= s < WORD -> s <> WORD - sizeof_free_block ->
  wrap (b + s + sizeof_free_block) <> b.
Proof.
  intros H0 H1 E. unfold wrap, sizeof_free_block in *.
  pose proof (Z.mod_pos_bound (b + s + 16) WORD ltac:(reflexivity)) as R.
  pose proof (Z.div_mod (b + s + 16) WORD ltac:(discriminate)) as D.
  rewrite E in D, R. unfold WORD in *.
  assert (Q : (b + s + 16) / 2 ^ 64 <= 0 \/ (b + s + 16) / 2 ^ 64 = 1
              \/ 2 <= (b + s + 16) / 2 ^ 64) by lia.
  lia.
Qed.

Lemma find_prev_from_self_loop (st : state) (block : Z) :
  block <> NULL -> get_next st block = block ->
  get_size st block <> WORD - sizeof_free_block ->
  forall fuel, find_prev_from fuel st block block = None.
Proof.
  intros Hb Hn Hs. induction fuel as [| fuel IH]; [reflexivity |].
  cbn [find_prev_from].
  destruct (Z.eqb_spec block NULL) as [E | _]; [contradiction |].
  pose proof (get_size_range st block) as R.
  destruct (Z.eqb_spec (wrap (block + get_size st block + sizeof_free_block)) block)
    as [E | _]; [exfalso; revert E; now apply block_end_self_only |].
  rewrite Hn. exact IH.
Qed.

(** X9.  Releasing the block that is already the head of the free list
    (a second release of the pointer just released) never returns, unless
    the block records the one capacity, [2^64 - 16], whose end wraps round
    to the block itself: the block's link is made to point at the block
    and the search for a previous neighbour runs round that loop, whatever
    the fuel. *)
Theorem release_of_head_block_diverges (fuel : nat) (st : state) (p : Z) :
  sizeof_size_t < p < WORD ->
  HEAD st = p - sizeof_size_t ->
  get_size st (p - sizeof_size_t) <> WORD - sizeof_free_block ->
  tufree fuel st p = None.
Proof.
  intros Hp Hh Hs. unfold tufree.
  destruct (Z.eqb_spec p NULL) as [E | _];
    [unfold NULL, sizeof_size_t in *; lia |].
  rewrite Hh. set (block := p - sizeof_size_t) in *.
  assert (Hb : block <> NULL)
    by (unfold block, NULL, sizeof_size_t in *; lia).
  set (st2 := set_HEAD (put_next st block block) block).
  assert (N : get_next st2 block = block).
  { unfold st2. mem_simpl. apply wrap_small.
    unfold block, sizeof_size_t, WORD in *. lia. }
  assert (G : get_size st2 block = get_size st block).
  { unfold st2. change (get_size (set_HEAD ?s ?h) block) with (get_size s block).
    apply get_size_put_next. now left. }
  unfold coalesce.
  destruct (Z.eqb_spec block NULL) as [E | _]; [contradiction |].
  unfold find_prev. change (HEAD st2) with block.
  rewrite (find_prev_from_self_loop st2 block Hb N); [reflexivity |].
  rewrite G. exact Hs.
Qed.

Lemma release_of_head_block_diverges_witness :
  let st := heap_after 3 (2 ^ 20) [Allocate 32; Release 4104] in
  HEAD st = 4096 /\ get_size st 4096 = 32 /\ tufree 1000 st 4104 = None.
Proof.
  intro st. split; [reflexivity |].
  assert (G : get_size st 4096 = 32) by (vm_compute; reflexivity).
  split; [exact G |].
  apply (release_of_head_block_diverges 1000 st 4104).
  - split; [reflexivity | reflexivity].
  - reflexivity.
  - change (4104 - sizeof_size_t) with 4096. rewrite G. discriminate.
Defined.

(** ** Splitting *)

Lemma split_leaves_free_list_witness :
  let st := heap_after 2 (2 ^ 20) one_free_block in
  free_blocks 3 (snd (split st 4096 16)) = Some [4096]
  /\ ~ In (4096 + 16 + sizeof_free_block) [4096].
Proof.
  intro st.
  apply (split_leaves_free_list 3 st 4096 16 [4096]).
  - vm_compute. reflexivity.
  - discriminate.
  - vm_compute. discriminate.
  - intros c [<- | []]. now left.
Defined.

(** X11.  [split] with a target that is a non-negative [int].  When the
    block's capacity is below the target plus 16 it returns null and the
    state is untouched.  Otherwise it returns the block; the block records
    the target, the remainder written 16 bytes past the target records what
    is left less one header, so that the two capacities and one header add
    up to the old capacity; the remainder carries the block's old link,
    while the block's own link, [HEAD] and the break are not changed. *)
Theorem split_conserves_capacity (st : state) (block size : Z) :
  0 <= size < 2 ^ 31 ->
  (get_size st block < size + sizeof_free_block ->
   split st block size = (NULL, st))
  /\ (size + sizeof_free_block <= get_size st block ->
      let new_block := block + size + sizeof_free_block in
      let st' := snd (split st block size) in
      fst (split st block size) = block
      /\ get_size st' block = size
      /\ get_size st' block + sizeof_free_block + get_size st' new_block
         = get_size st block
      /\ get_next st' new_block = get_next st block
      /\ get_next st' block = get_next st block
      /\ HEAD st' = HEAD st
      /\ brk st' = brk st).
Proof.
  intro Hs. split.
  - intro Hsmall. apply split_refuses.
    rewrite (wrap_small size) by (unfold WORD; lia).
    rewrite wrap_small by (unfold sizeof_free_block, WORD; lia). exact Hsmall.
  - intros Hfit new_block st'.
    destruct (split_carves st block size (proj1 Hs) Hfit)
      as [R [G1 [G2 [N1 [N2 Hh]]]]].
    fold new_block in G2, N1. fold st' in G1, G2, N1, N2, Hh.
    repeat split; auto.
    + rewrite G1, G2. lia.
    + unfold st', split.
      destruct (get_size st block <? wrap (wrap size + sizeof_free_block));
        reflexivity.
Qed.

Lemma split_conserves_capacity_witness :
  let st := heap_after 2 (2 ^ 20) one_free_block in
  let st' := snd (split st 4096 16) in
  split st 4096 49 = (NULL, st)
  /\ fst (split st 4096 16) = 4096
  /\ get_size st' 4096 = 16
  /\ get_size st' 4096 + sizeof_free_block + get_size st' 4128 = 64.
Proof.
  intros st st'.
  assert (G : get_size st 4096 = 64) by (vm_compute; reflexivity).
  split.
  - apply (proj1 (split_conserves_capacity st 4096 49 ltac:(split; [discriminate | reflexivity]))).
    rewrite G. reflexivity.
  - destruct (proj2 (split_conserves_capacity st 4096 16
                       ltac:(split; [discriminate | reflexivity])))
      as [R [G1 [G2 _]]].
    + rewrite G. discriminate.
    + split; [exact R |]. split; [exact G1 |]. rewrite <- G. exact G2.
Defined.

(** ** Requests at the ends of the range *)


Lemma align_up_top (s : Z) : WORD - 16 < s < WORD -> align_up s = 0.
Proof.
  intro H. rewrite align_up_spec.
  assert (E : wrap (s + 15) = s + 15 - WORD).
  { unfold wrap. symmetry. apply (Z.mod_unique (s + 15) WORD 1); unfold WORD in *; lia. }
  rewrite E. rewrite Z.div_small by (unfold WORD in *; lia). reflexivity.
Qed.

(** X12.  A request of zero bytes, or one within 15 bytes of [2^64],
    rounds to zero.  On an empty free list with 8 bytes of heap to be had
    it is granted: the call returns the old break plus 8, a non-null
    pointer whose block records a capacity of 0, and the break moves by
    the 8 bytes of the size word alone. *)
Theorem request_rounding_to_zero (fuel : nat) (st : state) (s : Z) :
  s = 0 \/ WORD - 16 < s < WORD ->
  (1 <= fuel)%nat ->
  HEAD st = NULL ->
  0 < brk st ->
  brk_min st <= brk st + sizeof_size_t <= brk_max st ->
  align_up s = 0
  /\ exists st',
      tumalloc fuel st s = Some (brk st + sizeof_size_t, st')
      /\ brk st + sizeof_size_t <> NULL
      /\ get_size st' (brk st) = 0
      /\ brk st' = brk st + sizeof_size_t.
Proof.
  intros Hs Hf Hh Hb Hg.
  assert (A : align_up s = 0)
    by (destruct Hs as [-> | Hs]; [reflexivity | now apply align_up_top]).
  split; [exact A |].
  exists (grown st 0). split.
  - rewrite (tumalloc_grows_on_empty fuel st s Hf Hh Hb);
      rewrite A; [reflexivity |].
    change (to_signed (wrap (0 + sizeof_size_t))) with sizeof_size_t. exact Hg.
  - split; [unfold NULL, sizeof_size_t; lia |].
    split; [mem_simpl; reflexivity | reflexivity].
Qed.

Lemma request_rounding_to_zero_witness :
  let st := fresh_heap 4096 (2 ^ 20) in
  align_up (WORD - 1) = 0
  /\ exists st',
      tumalloc 1 st (WORD - 1) = Some (4104, st')
      /\ get_size st' 4096 = 0
      /\ brk st' = 4104.
Proof.
  intro st.
  destruct (request_rounding_to_zero 1 st (WORD - 1)) as [A [st' [E [_ [G B]]]]].
  - right. split; reflexivity.
  - apply le_n.
  - reflexivity.
  - reflexivity.
  - split; discriminate.
  - split; [exact A |]. exists st'. auto.
Defined.

(** ** How the calls compose *)



Lemma memcpy_outside (m : memory) (dst src n x : Z) :
  x < dst \/ dst + n <= x -> memcpy m dst src n x = m x.
Proof.
  intro H. unfold memcpy.
  destruct (Z.leb_spec dst x); destruct (Z.ltb_spec x (dst + n));
    cbn; try reflexivity; lia.
Qed.

Lemma memcpy_inside (m : memory) (dst src n x : Z) :
  dst <= x < dst + n -> memcpy m dst src n x = m (src + (x - dst)).
Proof.
  intro H. unfold memcpy.
  destruct (Z.leb_spec dst x); destruct (Z.ltb_spec x (dst + n));
    cbn; try reflexivity; lia.
Qed.

Lemma load64_memcpy_other (m : memory) (dst src n a : Z) :
  a + 8 <= dst \/ dst + n <= a ->
  load64 (memcpy m dst src n) a = load64 m a.
Proof.
  intro H. unfold load64. rewrite !memcpy_outside by lia. reflexivity.
Qed.

(** X15.  Resize to a larger size on an empty free list.  For a block
    that lies below the break, whose recorded capacity is below the new
    size, and a new size the system grants, the call returns the old break
    plus 8; the bytes of the old capacity are found at the new address;
    the new block records the rounded new size; and the old block has been
    released: it is the head of the free list, with its capacity as
    recorded before and no successor. *)
Theorem resize_grows_by_copy (fuel : nat) (st : state) (p n : Z) :
  (2 <= fuel)%nat ->
  HEAD st = NULL ->
  sizeof_size_t < p ->
  load64 (mem st) (p - sizeof_size_t) < n ->
  n <= WORD - 32 ->
  p + load64 (mem st) (p - sizeof_size_t) <= brk st ->
  p + sizeof_size_t <= brk st ->
  align_up n + sizeof_size_t < 2 ^ 63 ->
  brk_min st <= brk st ->
  brk st + align_up n + sizeof_size_t <= brk_max st ->
  exists st',
    turealloc fuel st p n = Some (brk st + sizeof_size_t, st')
    /\ (forall i, 0 <= i < load64 (mem st) (p - sizeof_size_t) ->
                  mem st' (brk st + sizeof_size_t + i) = mem st (p + i))
    /\ get_size st' (brk st) = align_up n
    /\ HEAD st' = p - sizeof_size_t
    /\ get_size st' (p - sizeof_size_t) = load64 (mem st) (p - sizeof_size_t)
    /\ get_next st' (p - sizeof_size_t) = NULL
    /\ brk st' = brk st + align_up n + sizeof_size_t.
Proof.
  intros Hf Hh Hp Hold Hn Hbelow Hlink Hpos Hmin Hmax.
  pose proof (load64_range (mem st) (p - sizeof_size_t)) as Ro.
  set (old := load64 (mem st) (p - sizeof_size_t)) in *.
  assert (Hs : 0 < n <= WORD - 32) by lia.
  destruct (align_up_window n Hs) as [Ha _].
  set (size := align_up n) in *. set (b := brk st) in *.
  assert (D : to_signed (wrap (size + sizeof_size_t)) = size + sizeof_size_t).
  { unfold sizeof_size_t in *.
    rewrite wrap_small by (unfold WORD in *; lia).
    unfold to_signed. rewrite wrap_small by (unfold WORD in *; lia).
    destruct (Z.ltb_spec (size + 8) (2 ^ 63)); [reflexivity | lia]. }
  unfold turealloc.
  destruct (Z.eqb_spec p NULL) as [E | _];
    [unfold NULL, sizeof_size_t in *; lia |].
  destruct (Z.eqb_spec n 0) as [E | _]; [lia |].
  fold old. destruct (Z.leb_spec n old) as [L | _]; [lia |].
  rewrite (tumalloc_grows_on_empty fuel st n)
    by (try assumption; try lia; fold size b;
        try (unfold sizeof_size_t in *; lia); rewrite D;
        unfold sizeof_size_t in *; lia).
  fold size b.
  destruct (Z.eqb_spec (b + sizeof_size_t) NULL) as [E | _];
    [unfold NULL, sizeof_size_t in *; lia |].
  set (st1 := grown st size).
  set (st2 := set_mem st1 (memcpy (mem st1) (b + sizeof_size_t) p old)).
  assert (G2 : get_size st2 (p - sizeof_size_t) = old).
  { unfold st2, st1, grown, get_size, off_size, set_mem. cbn [mem]. fold b.
    rewrite Z.add_0_r.
    rewrite load64_memcpy_other by (unfold sizeof_size_t in *; lia).
    rewrite load64_store64_other by (unfold sizeof_size_t in *; lia).
    reflexivity. }
  assert (F : tufree fuel st2 p
              = Some (set_HEAD (put_next st2 (p - sizeof_size_t) NULL)
                               (p - sizeof_size_t))).
  { replace p with (p - sizeof_size_t + sizeof_size_t) at 1 by lia.
    apply (tufree_single fuel st2 (p - sizeof_size_t) old); auto;
      unfold WORD, sizeof_free_block in *; lia. }
  rewrite F. eexists. split; [reflexivity |].
  unfold sizeof_size_t in *.
  split.
  { intros i Hi. unfold st2, st1, grown, put_next, set_HEAD, set_mem, off_next.
    cbn [mem]. fold b.
    rewrite store64_outside by lia.
    rewrite memcpy_inside by lia.
    rewrite store64_outside by lia.
    f_equal. lia. }
  split.
  { unfold st2, st1, grown, put_next, set_HEAD, set_mem, get_size, off_next, off_size.
    cbn [mem]. fold b. rewrite Z.add_0_r.
    rewrite load64_store64_other by lia.
    rewrite load64_memcpy_other by lia.
    rewrite load64_store64_same. apply wrap_small. unfold WORD in *. lia. }
  split; [reflexivity |].
  split.
  { unfold put_next, set_HEAD, set_mem, get_size, off_next, off_size.
    cbn [mem]. rewrite Z.add_0_r.
    rewrite load64_store64_other by lia.
    unfold get_size, off_size in G2. rewrite Z.add_0_r in G2. exact G2. }
  split.
  { unfold put_next, set_HEAD, set_mem, get_next, off_next. cbn [mem].
    rewrite load64_store64_same. reflexivity. }
  unfold st2, st1, grown, set_mem. cbn [brk set_HEAD put_next set_mem]. fold b.
  unfold sizeof_size_t. rewrite D. lia.
Qed.

Lemma resize_grows_by_copy_witness :
  let st := heap_after 1 (2 ^ 20) [Allocate 32] in
  exists st',
    turealloc 2 st 4104 64 = Some (4144, st')
    /\ HEAD st' = 4096
    /\ get_size st' 4136 = 64.
Proof.
  intro st.
  assert (O : load64 (mem st) (4104 - sizeof_size_t) = 32)
    by (vm_compute; reflexivity).
  destruct (resize_grows_by_copy 2 st 4104 64) as [st' [E [_ [G [H _]]]]].
  - apply le_n.
  - reflexivity.
  - reflexivity.
  - rewrite O. reflexivity.
  - discriminate.
  - rewrite O. vm_compute. discriminate.
  - vm_compute. discriminate.
  - reflexivity.
  - vm_compute. discriminate.
  - vm_compute. discriminate.
  - exists st'. split; [exact E |]. split; [exact H |].
    transitivity (align_up 64); [exact G | reflexivity].
Defined.

(** X16.  A block of capacity zero has no room for the link [tufree]
    writes: the 8 bytes at the pointer are the size word of the block
    carved next.  On an empty free list with room for both, "Allocate 0,
    Allocate [s], Release the first" all return, the second allocation is
    stamped with its rounded size at the very address the first call
    returned, and after the release that word reads 0: the capacity
    recorded for the second, still allocated, block is gone. *)
Theorem release_of_empty_block_erases_next_size
        (fuel : nat) (st : state) (s : Z) :
  (2 <= fuel)%nat ->
  HEAD st = NULL ->
  0 < brk st ->
  0 < s <= WORD - 32 ->
  align_up s + sizeof_size_t < 2 ^ 63 ->
  brk_min st <= brk st ->
  brk st + 16 + align_up s <= brk_max st ->
  exists st1 st2 st3,
    tumalloc fuel st 0 = Some (brk st + 8, st1)
    /\ tumalloc fuel st1 s = Some (brk st + 16, st2)
    /\ load64 (mem st2) (brk st + 16 - sizeof_size_t) = align_up s
    /\ tufree fuel st2 (brk st + 8) = Some st3
    /\ load64 (mem st3) (brk st + 16 - sizeof_size_t) = 0.
Proof.
  intros Hf Hh Hb Hs Hpos Hmin Hmax.
  destruct (align_up_window s Hs) as [Ha _].
  set (size := align_up s) in *. set (b := brk st) in *.
  assert (D : to_signed (wrap (size + sizeof_size_t)) = size + sizeof_size_t).
  { unfold sizeof_size_t in *.
    rewrite wrap_small by (unfold WORD in *; lia).
    unfold to_signed. rewrite wrap_small by (unfold WORD in *; lia).
    destruct (Z.ltb_spec (size + 8) (2 ^ 63)); [reflexivity | lia]. }
  set (st1 := grown st 0).
  assert (B1 : brk st1 = b + 8) by reflexivity.
  assert (T1 : tumalloc fuel st 0 = Some (b + 8, st1)).
  { apply (tumalloc_grows_on_empty fuel st 0); try assumption; try lia.
    change (to_signed (wrap (align_up 0 + sizeof_size_t))) with 8.
    fold b. lia. }
  set (st2 := grown st1 size).
  assert (T2 : tumalloc fuel st1 s = Some (b + 16, st2)).
  { replace (b + 16) with (brk st1 + sizeof_size_t)
      by (rewrite B1; unfold sizeof_size_t; lia).
    apply (tumalloc_grows_on_empty fuel st1 s).
    - lia.
    - exact Hh.
    - rewrite B1. lia.
    - fold size. rewrite D, B1.
      change (brk_min st1) with (brk_min st).
      change (brk_max st1) with (brk_max st).
      unfold sizeof_size_t. lia. }
  assert (G2 : get_size st2 b = 0).
  { unfold get_size, off_size, st2, grown. cbn [mem]. rewrite B1, Z.add_0_r.
    rewrite load64_store64_other by lia. unfold st1, grown. cbn [mem]. fold b.
    rewrite load64_store64_same. reflexivity. }
  assert (F : tufree fuel st2 (b + sizeof_size_t)
              = Some (set_HEAD (put_next st2 b NULL) b)).
  { apply (tufree_single fuel st2 b 0); auto. unfold WORD, sizeof_free_block. lia. }
  exists st1, st2, (set_HEAD (put_next st2 b NULL) b).
  split; [exact T1 |]. split; [exact T2 |].
  replace (b + 16 - sizeof_size_t) with (b + 8) by (unfold sizeof_size_t; lia).
  split.
  { unfold st2, grown. cbn [mem]. rewrite B1.
    rewrite load64_store64_same. apply wrap_small. unfold WORD in *. lia. }
  split; [exact F |].
  unfold put_next, set_HEAD, set_mem, off_next. cbn [mem].
  rewrite load64_store64_same. reflexivity.
Qed.

Lemma release_of_empty_block_erases_next_size_witness :
  let st := fresh_heap 4096 (2 ^ 20) in
  exists st1 st2 st3,
    tumalloc 2 st 0 = Some (4104, st1)
    /\ tumalloc 2 st1 32 = Some (4112, st2)
    /\ load64 (mem st2) (4112 - sizeof_size_t) = 32
    /\ tufree 2 st2 4104 = Some st3
    /\ load64 (mem st3) (4112 - sizeof_size_t) = 0.
Proof.
  intro st.
  destruct (release_of_empty_block_erases_next_size 2 st 32)
    as [st1 [st2 [st3 [T1 [T2 [G2 [F G3]]]]]]].
  - apply le_n.
  - reflexivity.
  - reflexivity.
  - split; [reflexivity | discriminate].
  - reflexivity.
  - discriminate.
  - vm_compute. discriminate.
  - exists st1, st2, st3. split; [exact T1 |]. split; [exact T2 |].
    split; [| split; [exact F | exact G3]].
    transitivity (align_up 32); [exact G2 | reflexivity].
Defined.

(** ** Merging with the block that follows *)

Lemma filter_nothing (f : Z -> bool) (l : list Z) :
  (forall x, In x l -> f x = false) -> filter f l = [].
Proof.
  induction l as [| x l IH]; intro H; [reflexivity |].
  cbn. rewrite (H x (or_introl eq_refl)). apply IH.
  intros y Hy. apply H. now right.
Qed.

Lemma hd_filter_eq (n : Z) (l : list Z) :
  In n l -> hd NULL (filter (fun c => c =? n) l) = n.
Proof.
  intro Hin.
  destruct (filter (fun c => c =? n) l) as [| x r] eqn:E.
  - exfalso.
    assert (X : In n (filter (fun c => c =? n) l))
      by (apply filter_In; split; [exact Hin | apply Z.eqb_refl]).
    rewrite E in X. exact X.
  - assert (X : In x (filter (fun c => c =? n) l)) by (rewrite E; now left).
    apply filter_In in X. destruct X as [_ X]. apply Z.eqb_eq in X. exact X.
Qed.

(** X17.  Release of a block whose end, by the arithmetic of [coalesce]
    (address plus capacity plus 16, reduced modulo [2^64]), is the address
    of a block [n] of the free list, when no listed block ends, by the
    same arithmetic, at the released one and all the headers involved are
    pairwise disjoint.  The call returns; the
    released block is the head of the list and records the two capacities
    plus 16; its link is the old link of [n], so the list continues with
    what followed [n]: the blocks that preceded [n] on the list are no
    longer reached from [HEAD]. *)
Theorem release_absorbs_following_block
        (fuel : nat) (st : state) (b n : Z) (l1 l2 : list Z) :
  free_blocks fuel st = Some (l1 ++ n :: l2) ->
  headers_apart (b :: l1 ++ n :: l2) ->
  0 < b ->
  0 <= HEAD st < WORD ->
  n = wrap (b + get_size st b + sizeof_free_block) ->
  (forall c, In c (l1 ++ n :: l2) ->
             wrap (c + get_size st c + sizeof_free_block) <> b) ->
  get_size st b + get_size st n + sizeof_free_block < WORD ->
  exists st',
    tufree (S fuel) st (b + sizeof_size_t) = Some st'
    /\ free_blocks (S fuel) st' = Some (b :: l2)
    /\ get_size st' b = get_size st b + get_size st n + sizeof_free_block
    /\ get_next st' b = get_next st n.
Proof.
  intros Hl HA Hb Hh Hn Hnoprev Hsum.
  set (l := l1 ++ n :: l2) in *.
  assert (Hapart : forall c, In c l ->
            b + sizeof_free_block <= c \/ c + sizeof_free_block <= b).
  { destruct HA as [HF _]. rewrite Forall_forall in HF. exact HF. }
  assert (Hnl : In n l) by (apply in_or_app; right; now left).
  pose proof (get_size_range st b) as Rb.
  pose proof (get_size_range st n) as Rn.
  unfold tufree.
  destruct (Z.eqb_spec (b + sizeof_size_t) NULL) as [E | _];
    [unfold NULL, sizeof_size_t in E; lia |].
  replace (b + sizeof_size_t - sizeof_size_t) with b by lia.
  set (st2 := set_HEAD (put_next st b (HEAD st)) b).
  assert (Sz2 : forall c, c = b \/ In c l -> get_size st2 c = get_size st c).
  { intros c Hc. unfold st2. change (get_size (set_HEAD ?s ?h) c) with (get_size s c).
    apply get_size_put_next. destruct Hc as [-> | Hc]; [now left | right].
    apply (Hapart c Hc). }
  assert (Nx2 : forall c, In c l -> get_next st2 c = get_next st c).
  { intros c Hc. unfold st2. change (get_next (set_HEAD ?s ?h) c) with (get_next s c).
    apply get_next_put_next. apply (Hapart c Hc). }
  assert (Nb2 : get_next st2 b = HEAD st).
  { unfold st2. mem_simpl. now apply wrap_small. }
  assert (L2 : free_blocks_from (S fuel) st2 b = Some (b :: l)).
  { rewrite free_blocks_from_S.
    destruct (Z.eqb_spec b NULL) as [E | _]; [unfold NULL in E; lia |].
    rewrite Nb2.
    rewrite (free_blocks_from_frame fuel st st2 (HEAD st) l Hl Nx2).
    reflexivity. }
  assert (P : find_prev (S fuel) st2 b = Some NULL).
  { unfold find_prev. change (HEAD st2) with b.
    rewrite (find_prev_from_filter st2 b (S fuel) b (b :: l) L2).
    rewrite filter_nothing; [reflexivity |].
    intros c [<- | Hc]; unfold ends_at; apply Z.eqb_neq.
    - rewrite (Sz2 b (or_introl eq_refl)), <- Hn.
      pose proof (Hapart n Hnl). unfold sizeof_free_block in *. lia.
    - rewrite (Sz2 c (or_intror Hc)). apply (Hnoprev c Hc). }
  assert (N : find_next (S fuel) st2 b = Some n).
  { unfold find_next. change (HEAD st2) with b.
    rewrite (Sz2 b (or_introl eq_refl)), <- Hn.
    rewrite (find_next_from_filter st2 n (S fuel) b (b :: l) L2).
    rewrite (hd_filter_eq n (b :: l)); [reflexivity | now right]. }
  assert (Hnn : n <> NULL).
  { intro E. apply (free_blocks_from_not_null _ _ _ _ Hl). rewrite <- E. exact Hnl. }
  unfold coalesce.
  destruct (Z.eqb_spec b NULL) as [E | _]; [unfold NULL in E; lia |].
  rewrite P, N. unfold coalesce_prev. change (NULL =? NULL) with true. cbv iota.
  unfold coalesce_next.
  destruct (Z.eqb_spec n NULL) as [E | _]; [contradiction |].
  rewrite (Sz2 b (or_introl eq_refl)), (Sz2 n (or_intror Hnl)), <- Hn, Z.eqb_refl.
  rewrite (wrap_small (get_size st n + sizeof_free_block))
    by (unfold sizeof_free_block, WORD in *; lia).
  rewrite (wrap_small (get_size st b + (get_size st n + sizeof_free_block)))
    by (unfold sizeof_free_block, WORD in *; lia).
  set (v := get_size st b + (get_size st n + sizeof_free_block)).
  set (st3 := put_size st2 b v).
  assert (Nn3 : get_next st3 n = get_next st n).
  { unfold st3. rewrite get_next_put_size by (right; apply (Hapart n Hnl)).
    apply (Nx2 n Hnl). }
  rewrite Nn3.
  set (st4 := put_next st3 b (get_next st n)).
  pose proof (get_next_range st n) as Rnn.
  assert (Nb4 : get_next st4 b = get_next st n).
  { unfold st4. mem_simpl. now apply wrap_small. }
  exists st4. split; [reflexivity |].
  split.
  { unfold free_blocks. change (HEAD st4) with b.
    rewrite free_blocks_from_S.
    destruct (Z.eqb_spec b NULL) as [E | _]; [unfold NULL in E; lia |].
    rewrite Nb4.
    rewrite (free_blocks_from_frame fuel st st4 (get_next st n) l2).
    - reflexivity.
    - apply (free_blocks_from_suffix st n l2 l1 fuel (HEAD st) Hl).
    - intros c Hc.
      assert (Hcl : In c l) by (apply in_or_app; right; now right).
      unfold st4. rewrite get_next_put_next by apply (Hapart c Hcl).
      unfold st3. rewrite get_next_put_size by (right; apply (Hapart c Hcl)).
      apply (Nx2 c Hcl). }
  split.
  { unfold st4. rewrite get_size_put_next by now left.
    unfold st3. rewrite get_size_put_size_same.
    rewrite wrap_small by (unfold v, sizeof_free_block, WORD in *; lia).
    unfold v. lia. }
  exact Nb4.
Qed.

Lemma release_absorbs_following_block_witness :
  let st := heap_after 2 (2 ^ 20)
              [Allocate 32; Allocate 0; Allocate 32; Release 4152] in
  free_blocks 2 st = Some [4144]
  /\ exists st',
      tufree 3 st 4104 = Some st'
      /\ free_blocks 3 st' = Some [4096]
      /\ get_size st' 4096 = 80.
Proof.
  intro st.
  assert (F : free_blocks 2 st = Some [4144]) by (vm_compute; reflexivity).
  assert (Gb : get_size st 4096 = 32) by (vm_compute; reflexivity).
  assert (Gn : get_size st 4144 = 32) by (vm_compute; reflexivity).
  split; [exact F |].
  destruct (release_absorbs_following_block 2 st 4096 4144 [] []) as [st' [E [F' [G _]]]].
  - exact F.
  - cbn. unfold sizeof_free_block.
    split; [constructor; [lia | constructor] | split; [constructor | exact I]].
  - reflexivity.
  - vm_compute. split; [discriminate | reflexivity].
  - rewrite Gb. reflexivity.
  - intros c [<- | []]. rewrite Gn. discriminate.
  - rewrite Gb, Gn. reflexivity.
  - exists st'. split; [exact E |]. split; [exact F' |].
    rewrite G, Gb, Gn. reflexivity.
Defined.

(** ** Merging with the block that precedes *)

Lemma hd_filter_first (f : Z -> bool) (l1 l2 : list Z) (x : Z) :
  (forall c, In c l1 -> f c = false) -> f x = true ->
  hd NULL (filter f (l1 ++ x :: l2)) = x.
Proof.
  intros H1 Hx. rewrite filter_app, (filter_nothing f l1 H1).
  cbn. rewrite Hx. reflexivity.
Qed.

(** X18.  Release of a block at which a block [prev] of the free list
    ends (its address plus capacity plus 16 is the released address, below
    [2^64]), when no block listed before [prev] ends there modulo [2^64],
    nothing listed starts at the end of the released block, taken modulo
    [2^64] as well, and all the headers involved are pairwise disjoint.  The call returns and [prev] records the two
    capacities plus 16; but the link of [prev] did not point at the block
    just pushed, so nothing is unlinked: the walk from [HEAD] yields the
    released block followed by the whole old list, [prev] included, and
    the released block, with its capacity as before, lies inside the range
    [prev] now records. *)
Theorem release_absorbed_block_stays_on_list
        (fuel : nat) (st : state) (b prev : Z) (l1 l2 : list Z) :
  free_blocks fuel st = Some (l1 ++ prev :: l2) ->
  headers_apart (b :: l1 ++ prev :: l2) ->
  0 < b < WORD ->
  0 <= HEAD st < WORD ->
  prev + get_size st prev + sizeof_free_block = b ->
  (forall c, In c l1 -> wrap (c + get_size st c + sizeof_free_block) <> b) ->
  ~ In (wrap (b + get_size st b + sizeof_free_block)) (l1 ++ prev :: l2) ->
  get_size st prev + get_size st b + sizeof_free_block < WORD ->
  exists st',
    tufree (S fuel) st (b + sizeof_size_t) = Some st'
    /\ free_blocks (S fuel) st' = Some (b :: l1 ++ prev :: l2)
    /\ get_size st' prev = get_size st prev + get_size st b + sizeof_free_block
    /\ get_size st' b = get_size st b
    /\ prev <= b
    /\ b + sizeof_free_block + get_size st' b
       <= prev + sizeof_free_block + get_size st' prev.
Proof.
  intros Hl HA Hb Hh Hprev Hfirst Hnonext Hsum.
  set (l := l1 ++ prev :: l2) in *.
  assert (Hapart : forall c, In c l ->
            b + sizeof_free_block <= c \/ c + sizeof_free_block <= b).
  { destruct HA as [HF _]. rewrite Forall_forall in HF. exact HF. }
  assert (Hpl : In prev l) by (apply in_or_app; right; now left).
  pose proof (get_size_range st b) as Rb.
  pose proof (get_size_range st prev) as Rp.
  unfold tufree.
  destruct (Z.eqb_spec (b + sizeof_size_t) NULL) as [E | _];
    [unfold NULL, sizeof_size_t in E; lia |].
  replace (b + sizeof_size_t - sizeof_size_t) with b by lia.
  set (st2 := set_HEAD (put_next st b (HEAD st)) b).
  assert (Sz2 : forall c, c = b \/ In c l -> get_size st2 c = get_size st c).
  { intros c Hc. unfold st2. change (get_size (set_HEAD ?s ?h) c) with (get_size s c).
    apply get_size_put_next. destruct Hc as [-> | Hc]; [now left | right].
    apply (Hapart c Hc). }
  assert (Nx2 : forall c, In c l -> get_next st2 c = get_next st c).
  { intros c Hc. unfold st2. change (get_next (set_HEAD ?s ?h) c) with (get_next s c).
    apply get_next_put_next. apply (Hapart c Hc). }
  assert (Nb2 : get_next st2 b = HEAD st).
  { unfold st2. mem_simpl. now apply wrap_small. }
  assert (L2 : free_blocks_from (S fuel) st2 b = Some (b :: l)).
  { rewrite free_blocks_from_S.
    destruct (Z.eqb_spec b NULL) as [E | _]; [unfold NULL in E; lia |].
    rewrite Nb2.
    rewrite (free_blocks_from_frame fuel st st2 (HEAD st) l Hl Nx2).
    reflexivity. }
  assert (P : find_prev (S fuel) st2 b = Some prev).
  { unfold find_prev. change (HEAD st2) with b.
    rewrite (find_prev_from_filter st2 b (S fuel) b (b :: l) L2).
    change (b :: l) with ((b :: l1) ++ prev :: l2).
    rewrite hd_filter_first; [reflexivity | |].
    - intros c [<- | Hc]; unfold ends_at; apply Z.eqb_neq.
      + rewrite (Sz2 b (or_introl eq_refl)).
        apply block_end_not_self; unfold sizeof_free_block in *; lia.
      + rewrite (Sz2 c) by (right; apply in_or_app; now left).
        apply (Hfirst c Hc).
    - unfold ends_at. rewrite (Sz2 prev (or_intror Hpl)), Hprev.
      apply Z.eqb_eq. apply wrap_small. lia. }
  assert (N : find_next (S fuel) st2 b = Some NULL).
  { unfold find_next. change (HEAD st2) with b.
    rewrite (Sz2 b (or_introl eq_refl)).
    rewrite (find_next_from_filter st2 _ (S fuel) b (b :: l) L2).
    rewrite filter_nothing; [reflexivity |].
    intros c [<- | Hc]; apply Z.eqb_neq.
    - intro E. symmetry in E. revert E.
      apply block_end_not_self; unfold sizeof_free_block in *; lia.
    - intro E. apply Hnonext. rewrite <- E. exact Hc. }
  assert (Hpn : prev <> NULL).
  { intro E. apply (free_blocks_from_not_null _ _ _ _ Hl). rewrite <- E. exact Hpl. }
  unfold coalesce.
  destruct (Z.eqb_spec b NULL) as [E | _]; [unfold NULL in E; lia |].
  rewrite P, N. unfold coalesce_prev.
  destruct (Z.eqb_spec prev NULL) as [E | _]; [contradiction |].
  rewrite (Sz2 prev (or_intror Hpl)), (Sz2 b (or_introl eq_refl)), Hprev.
  rewrite (wrap_small b) by lia. rewrite Z.eqb_refl.
  rewrite (wrap_small (get_size st b + sizeof_free_block))
    by (unfold sizeof_free_block, WORD in *; lia).
  rewrite (wrap_small (get_size st prev + (get_size st b + sizeof_free_block)))
    by (unfold sizeof_free_block, WORD in *; lia).
  set (v := get_size st prev + (get_size st b + sizeof_free_block)).
  set (st3 := put_size st2 prev v).
  assert (Np3 : get_next st3 prev <> b).
  { unfold st3. rewrite get_next_put_size by now left.
    rewrite (Nx2 prev Hpl). intro E.
    assert (S2 := free_blocks_from_suffix st prev l2 l1 fuel (HEAD st) Hl).
    rewrite E in S2. destruct l2 as [| y l2'].
    - apply free_blocks_from_nil in S2. unfold NULL in S2. lia.
    - apply free_blocks_from_cons in S2. destruct S2 as [Eb _].
      apply (headers_apart_not_in b l HA). unfold l.
      apply in_or_app. right. right. left. symmetry. exact Eb. }
  destruct (Z.eqb_spec (get_next st3 prev) b) as [E | _]; [contradiction |].
  unfold coalesce_next. change (NULL =? NULL) with true. cbv iota.
  exists st3. split; [reflexivity |].
  split.
  { unfold free_blocks. change (HEAD st3) with b.
    apply (free_blocks_from_frame (S fuel) st2 st3 b (b :: l) L2).
    intros c Hc. unfold st3. apply get_next_put_size.
    destruct (Z.eq_dec c prev) as [-> | NE]; [now left | right].
    apply (headers_apart_in (b :: l) prev c HA); [now right | exact Hc | congruence]. }
  split.
  { unfold st3. rewrite get_size_put_size_same.
    rewrite wrap_small by (unfold v, sizeof_free_block, WORD in *; lia).
    unfold v. lia. }
  split.
  { unfold st3. rewrite get_size_put_size by (pose proof (Hapart prev Hpl); lia).
    apply (Sz2 b (or_introl eq_refl)). }
  split; [unfold sizeof_free_block in *; lia |].
  unfold st3. rewrite get_size_put_size_same.
  rewrite get_size_put_size by (pose proof (Hapart prev Hpl); lia).
  rewrite (Sz2 b (or_introl eq_refl)).
  rewrite wrap_small by (unfold v, sizeof_free_block, WORD in *; lia).
  unfold v, sizeof_free_block in *. lia.
Qed.

Lemma release_absorbed_block_stays_on_list_witness :
  let st := heap_after 2 (2 ^ 20)
              [Allocate 32; Allocate 0; Allocate 32; Release 4104] in
  free_blocks 2 st = Some [4096]
  /\ exists st',
      tufree 3 st 4152 = Some st'
      /\ free_blocks 3 st' = Some [4144; 4096]
      /\ get_size st' 4096 = 80
      /\ get_size st' 4144 = 32.
Proof.
  intro st.
  assert (F : free_blocks 2 st = Some [4096]) by (vm_compute; reflexivity).
  assert (Gb : get_size st 4144 = 32) by (vm_compute; reflexivity).
  assert (Gp : get_size st 4096 = 32) by (vm_compute; reflexivity).
  split; [exact F |].
  destruct (release_absorbed_block_stays_on_list 2 st 4144 4096 [] [])
    as [st' [E [F' [G1 [G2 _]]]]].
  - exact F.
  - cbn. unfold sizeof_free_block.
    split; [constructor; [lia | constructor] | split; [constructor | exact I]].
  - split; reflexivity.
  - vm_compute. split; [discriminate | reflexivity].
  - rewrite Gp. reflexivity.
  - intros c [].
  - rewrite Gb. intros [C | []]. vm_compute in C. discriminate C.
  - rewrite Gb, Gp. reflexivity.
  - exists st'. split; [exact E |]. split; [exact F' |]. split.
    + rewrite G1, Gb, Gp. reflexivity.
    + rewrite G2. exact Gb.
Defined.

(** ** Merging on both sides *)

Lemma wrap_once (x : Z) :
  0 <= x < 2 * WORD -> wrap x = x \/ wrap x = x - WORD.
Proof.
  intro H. destruct (Z.lt_ge_cases x WORD) as [L | G].
  - left. apply wrap_small. lia.
  - right. unfold wrap. symmetry.
    apply (Z.mod_unique x WORD 1); unfold WORD in *; lia.
Qed.

Lemma walk_of_self_loop (st : state) (x : Z) :
  x <> NULL -> get_next st x = x ->
  forall fuel, free_blocks_from fuel st x = None.
Proof.
  intros Hx Hn. induction fuel as [| fuel IH]; [reflexivity |].
  rewrite free_blocks_from_S.
  destruct (Z.eqb_spec x NULL) as [E | _]; [contradiction |].
  rewrite Hn, IH. reflexivity.
Qed.

Lemma walk_into_loop (st : state) (x : Z) :
  x <> NULL ->
  (forall fuel, free_blocks_from fuel st (get_next st x) = None) ->
  forall fuel, free_blocks_from fuel st x = None.
Proof.
  intros Hx H fuel. destruct fuel as [| fuel]; [reflexivity |].
  rewrite free_blocks_from_S.
  destruct (Z.eqb_spec x NULL) as [E | _]; [contradiction |].
  rewrite H. reflexivity.
Qed.

Lemma scan_of_self_loop (st : state) (size x : Z) :
  x <> NULL -> get_next st x = x ->
  get_size st x < wrap (size + sizeof_free_block) ->
  forall fuel prev, tumalloc_scan fuel st size x prev = None.
Proof.
  intros Hx Hn Hs. induction fuel as [| fuel IH]; intro prev; [reflexivity |].
  cbn [tumalloc_scan].
  destruct (Z.eqb_spec x NULL) as [E | _]; [contradiction |].
  destruct (Z.leb_spec (wrap (size + sizeof_free_block)) (get_size st x)); [lia |].
  rewrite Hn. apply IH.
Qed.

Lemma scan_into_loop (st : state) (size x : Z) :
  x <> NULL ->
  get_size st x < wrap (size + sizeof_free_block) ->
  (forall fuel prev, tumalloc_scan fuel st size (get_next st x) prev = None) ->
  forall fuel prev, tumalloc_scan fuel st size x prev = None.
Proof.
  intros Hx Hs H fuel prev. destruct fuel as [| fuel]; [reflexivity |].
  cbn [tumalloc_scan].
  destruct (Z.eqb_spec x NULL) as [E | _]; [contradiction |].
  destruct (Z.leb_spec (wrap (size + sizeof_free_block)) (get_size st x)); [lia |].
  apply H.
Qed.

(** X19.  Release of a block that, by the arithmetic of [coalesce], has
    a free block on each side, the free list being the following block
    [next] and then the preceding block [prev].  The call returns; [prev]
    records the three capacities plus 32, and its link has been given the
    link of [next], which is [prev] itself.  From then on the free list is
    a loop: the walk from [HEAD] does not end whatever the fuel, and a
    later request too large for [prev] never returns. *)
Theorem release_between_free_blocks_ties_loop
        (fuel : nat) (st : state) (b prev next : Z) :
  free_blocks fuel st = Some [next; prev] ->
  headers_apart [b; next; prev] ->
  0 < b ->
  next < WORD ->
  prev + get_size st prev + sizeof_free_block = b ->
  next = b + get_size st b + sizeof_free_block ->
  get_size st prev + get_size st b + get_size st next + 32 < WORD ->
  exists st',
    tufree (S fuel) st (b + sizeof_size_t) = Some st'
    /\ get_size st' prev
       = get_size st prev + get_size st b + get_size st next + 32
    /\ get_next st' prev = prev
    /\ (forall f, free_blocks f st' = None)
    /\ (forall f s,
           get_size st prev + get_size st b + get_size st next + 32
           < wrap (align_up s + sizeof_free_block) ->
           tumalloc f st' s = None).
Proof.
  intros Hl HA Hb Hnw Hprev Hnext Hsum.
  set (l := [next; prev]) in *.
  unfold free_blocks in Hl.
  destruct (free_blocks_from_step _ _ _ _ _ Hl) as [f1 [Ef [Hh [Hnn Hl1]]]].
  destruct (free_blocks_from_step _ _ _ _ _ Hl1) as [f2 [_ [Enp [Hpn Hl2]]]].
  apply free_blocks_from_nil in Hl2.
  assert (Hapart : forall c, In c l ->
            b + sizeof_free_block <= c \/ c + sizeof_free_block <= b).
  { destruct HA as [HF _]. rewrite Forall_forall in HF. exact HF. }
  assert (Hnp : next + sizeof_free_block <= prev \/ prev + sizeof_free_block <= next).
  { destruct HA as [_ [HF _]]. rewrite Forall_forall in HF. apply HF. now left. }
  assert (Hpl : In prev l) by (right; now left).
  assert (Hnl : In next l) by now left.
  pose proof (get_size_range st b) as Rb.
  pose proof (get_size_range st prev) as Rp.
  pose proof (get_size_range st next) as Rn.
  pose proof (get_next_range st next) as Rnn. rewrite Enp in Rnn.
  unfold tufree.
  destruct (Z.eqb_spec (b + sizeof_size_t) NULL) as [E | _];
    [unfold NULL, sizeof_size_t in E; lia |].
  replace (b + sizeof_size_t - sizeof_size_t) with b by lia.
  rewrite Hh.
  set (st2 := set_HEAD (put_next st b next) b).
  assert (Sz2 : forall c, c = b \/ In c l -> get_size st2 c = get_size st c).
  { intros c Hc. unfold st2. change (get_size (set_HEAD ?s ?h) c) with (get_size s c).
    apply get_size_put_next. destruct Hc as [-> | Hc]; [now left | right].
    apply (Hapart c Hc). }
  assert (Nx2 : forall c, In c l -> get_next st2 c = get_next st c).
  { intros c Hc. unfold st2. change (get_next (set_HEAD ?s ?h) c) with (get_next s c).
    apply get_next_put_next. apply (Hapart c Hc). }
  assert (Nb2 : get_next st2 b = next).
  { unfold st2. mem_simpl. apply wrap_small. unfold NULL in *.
    pose proof (Hapart next Hnl). unfold sizeof_free_block in *. lia. }
  assert (L2 : free_blocks_from (S fuel) st2 b = Some (b :: l)).
  { rewrite free_blocks_from_S.
    destruct (Z.eqb_spec b NULL) as [E | _]; [unfold NULL in E; lia |].
    rewrite Nb2. rewrite <- Hh.
    rewrite (free_blocks_from_frame fuel st st2 (HEAD st) l Hl Nx2).
    reflexivity. }
  assert (P : find_prev (S fuel) st2 b = Some prev).
  { unfold find_prev. change (HEAD st2) with b.
    rewrite (find_prev_from_filter st2 b (S fuel) b (b :: l) L2).
    change (b :: l) with ([b; next] ++ prev :: []).
    rewrite hd_filter_first; [reflexivity | |].
    - intros c [<- | [<- | []]]; unfold ends_at; apply Z.eqb_neq.
      + rewrite (Sz2 b (or_introl eq_refl)), <- Hnext.
        rewrite wrap_small by (unfold sizeof_free_block in *; lia).
        unfold sizeof_free_block in *. lia.
      + rewrite (Sz2 next (or_intror Hnl)).
        destruct (wrap_once (next + get_size st next + sizeof_free_block))
          as [W | W]; [unfold sizeof_free_block, WORD in *; lia | |];
          rewrite W; unfold sizeof_free_block, WORD in *; lia.
    - unfold ends_at. rewrite (Sz2 prev (or_intror Hpl)), Hprev.
      apply Z.eqb_eq. apply wrap_small. unfold sizeof_free_block in *. lia. }
  assert (N : find_next (S fuel) st2 b = Some next).
  { unfold find_next. change (HEAD st2) with b.
    rewrite (Sz2 b (or_introl eq_refl)), <- Hnext.
    rewrite (wrap_small next) by (unfold sizeof_free_block in *; lia).
    rewrite (find_next_from_filter st2 next (S fuel) b (b :: l) L2).
    rewrite (hd_filter_eq next (b :: l)); [reflexivity | right; now left]. }
  unfold coalesce.
  destruct (Z.eqb_spec b NULL) as [E | _]; [unfold NULL in E; lia |].
  rewrite P, N. unfold coalesce_prev.
  destruct (Z.eqb_spec prev NULL) as [E | _]; [contradiction |].
  rewrite (Sz2 prev (or_intror Hpl)), (Sz2 b (or_introl eq_refl)), Hprev.
  rewrite (wrap_small b) by (unfold sizeof_free_block in *; lia).
  rewrite Z.eqb_refl.
  rewrite (wrap_small (get_size st b + sizeof_free_block))
    by (unfold sizeof_free_block, WORD in *; lia).
  rewrite (wrap_small (get_size st prev + (get_size st b + sizeof_free_block)))
    by (unfold sizeof_free_block, WORD in *; lia).
  set (v1 := get_size st prev + (get_size st b + sizeof_free_block)).
  set (st3 := put_size st2 prev v1).
  assert (Np3 : get_next st3 prev = NULL).
  { unfold st3. rewrite get_next_put_size by now left.
    rewrite (Nx2 prev Hpl). exact Hl2. }
  rewrite Np3.
  destruct (Z.eqb_spec NULL b) as [E | _]; [unfold NULL in E; lia |].
  unfold coalesce_next.
  destruct (Z.eqb_spec next NULL) as [E | _]; [contradiction |].
  assert (Sp3 : get_size st3 prev = v1).
  { unfold st3. rewrite get_size_put_size_same.
    apply wrap_small. unfold v1, sizeof_free_block, WORD in *. lia. }
  assert (Sn3 : get_size st3 next = get_size st next).
  { unfold st3. rewrite get_size_put_size by lia. apply (Sz2 next (or_intror Hnl)). }
  rewrite Sp3, Sn3.
  replace (prev + v1 + sizeof_free_block) with next
    by (unfold v1, sizeof_free_block in *; lia).
  rewrite (wrap_small next) by (unfold sizeof_free_block in *; lia).
  rewrite Z.eqb_refl.
  rewrite (wrap_small (get_size st next + sizeof_free_block))
    by (unfold sizeof_free_block, WORD in *; lia).
  rewrite (wrap_small (v1 + (get_size st next + sizeof_free_block)))
    by (unfold v1, sizeof_free_block, WORD in *; lia).
  set (v2 := v1 + (get_size st next + sizeof_free_block)).
  set (st4 := put_size st3 prev v2).
  assert (Nn4 : get_next st4 next = prev).
  { unfold st4. rewrite get_next_put_size by (right; lia).
    unfold st3. rewrite get_next_put_size by (right; lia).
    rewrite (Nx2 next Hnl). exact Enp. }
  rewrite Nn4.
  set (st5 := put_next st4 prev prev).
  assert (Np5 : get_next st5 prev = prev).
  { unfold st5. mem_simpl. now apply wrap_small. }
  assert (Nn5 : get_next st5 next = prev).
  { unfold st5. rewrite get_next_put_next by lia. exact Nn4. }
  assert (Nb5 : get_next st5 b = next).
  { unfold st5. rewrite get_next_put_next by (pose proof (Hapart prev Hpl); lia).
    unfold st4. rewrite get_next_put_size by (right; pose proof (Hapart prev Hpl); lia).
    unfold st3. rewrite get_next_put_size by (right; pose proof (Hapart prev Hpl); lia).
    exact Nb2. }
  assert (Sp5 : get_size st5 prev = v2).
  { unfold st5. rewrite get_size_put_next by now left.
    unfold st4. rewrite get_size_put_size_same.
    apply wrap_small. unfold v2, v1, sizeof_free_block, WORD in *. lia. }
  assert (Sn5 : get_size st5 next = get_size st next).
  { unfold st5. rewrite get_size_put_next by (right; lia).
    unfold st4. rewrite get_size_put_size by lia. exact Sn3. }
  assert (Sb5 : get_size st5 b = get_size st b).
  { unfold st5. rewrite get_size_put_next by (right; pose proof (Hapart prev Hpl); lia).
    unfold st4. rewrite get_size_put_size by (pose proof (Hapart prev Hpl); lia).
    unfold st3. rewrite get_size_put_size by (pose proof (Hapart prev Hpl); lia).
    apply (Sz2 b (or_introl eq_refl)). }
  assert (Hbn : b <> NULL) by (unfold NULL; lia).
  exists st5. split; [reflexivity |].
  split; [rewrite Sp5; unfold v2, v1, sizeof_free_block; lia |].
  split; [exact Np5 |].
  split.
  - intro f. unfold free_blocks. change (HEAD st5) with b.
    apply (walk_into_loop st5 b Hbn). rewrite Nb5.
    apply (walk_into_loop st5 next Hnn). rewrite Nn5.
    apply (walk_of_self_loop st5 prev Hpn Np5).
  - intros f s Hbig. unfold tumalloc. change (HEAD st5) with b.
    rewrite (scan_into_loop st5 (align_up s) b Hbn); [reflexivity | |].
    + rewrite Sb5. lia.
    + rewrite Nb5. apply (scan_into_loop st5 (align_up s) next Hnn).
      * rewrite Sn5. lia.
      * rewrite Nn5. apply (scan_of_self_loop st5 (align_up s) prev Hpn Np5).
        rewrite Sp5. unfold v2, v1, sizeof_free_block in *. lia.
Qed.

Lemma release_between_free_blocks_ties_loop_witness :
  let st := heap_after 3 (2 ^ 20) outer_of_three_released in
  free_blocks 3 st = Some [4192; 4096]
  /\ exists st',
      tufree 4 st 4152 = Some st'
      /\ get_size st' 4096 = 128
      /\ get_next st' 4096 = 4096
      /\ free_blocks 1000 st' = None
      /\ tumalloc 1000 st' 200 = None.
Proof.
  intro st.
  assert (F : free_blocks 3 st = Some [4192; 4096]) by (vm_compute; reflexivity).
  assert (Gb : get_size st 4144 = 32) by (vm_compute; reflexivity).
  assert (Gp : get_size st 4096 = 32) by (vm_compute; reflexivity).
  assert (Gn : get_size st 4192 = 32) by (vm_compute; reflexivity).
  split; [exact F |].
  destruct (release_between_free_blocks_ties_loop 3 st 4144 4096 4192)
    as [st' [E [G [N [W T]]]]].
  - exact F.
  - cbn. unfold sizeof_free_block.
    split; [constructor; [lia | constructor; [lia | constructor]] |].
    split; [constructor; [lia | constructor] |].
    split; [constructor | exact I].
  - reflexivity.
  - reflexivity.
  - rewrite Gp. reflexivity.
  - rewrite Gb. reflexivity.
  - rewrite Gp, Gb, Gn. reflexivity.
  - exists st'. split; [exact E |]. split.
    + rewrite G, Gp, Gb, Gn. reflexivity.
    + split; [exact N |]. split; [apply W |].
      apply T. rewrite Gp, Gb, Gn. vm_compute. reflexivity.
Defined.

(** ** Rounding *)

(** X20.  For a size between 0 and [2^64 - 16] the rounded size is the
    least multiple of 16 that is not below it; rounding a rounded size
    changes nothing. *)
Theorem align_up_least_multiple (s : Z) :
  0 <= s <= WORD - 16 ->
  align_up s mod ALIGNMENT = 0
  /\ s <= align_up s
  /\ (forall m, s <= m -> m mod ALIGNMENT = 0 -> align_up s <= m)
  /\ align_up (align_up s) = align_up s.
Proof.
  intro Hs.
  destruct (align_up_bounds s) as [[Hle Hlt] Hm]; [lia | unfold WORD in *; lia |].
  split; [exact Hm |]. split; [exact Hle |]. split.
  - intros m Hsm Hmm. unfold ALIGNMENT in *.
    pose proof (Z.div_mod (align_up s) 16 ltac:(lia)) as D1. rewrite Hm in D1.
    pose proof (Z.div_mod m 16 ltac:(lia)) as D2. rewrite Hmm in D2.
    lia.
  - set (r := align_up s) in *.
    rewrite (align_up_spec r).
    assert (Hr : r <= WORD - 16).
    { pose proof (Z.div_mod r 16 ltac:(lia)) as D. unfold ALIGNMENT in Hm.
      rewrite Hm in D. change WORD with (16 * 1152921504606846976) in *. lia. }
    rewrite wrap_small by (unfold WORD in *; lia).
    pose proof (Z.div_mod r 16 ltac:(lia)) as D. unfold ALIGNMENT in Hm.
    rewrite Hm in D.
    replace (r + 15) with (r / 16 * 16 + 15) by lia.
    rewrite Z.div_add_l by lia. change (15 / 16) with 0. lia.
Qed.

Lemma align_up_least_multiple_witness :
  align_up 33 = 48 /\ align_up 48 = 48 /\ align_up 33 mod ALIGNMENT = 0.
Proof.
  destruct (align_up_least_multiple 33 ltac:(split; discriminate))
    as [M [_ [_ I2]]].
  split; [reflexivity |]. split; [exact I2 | exact M].
Defined.
